(** * imagemin-cli: the dispatch core of [cli.js]

    A shallow embedding of [src/cli.js]: plugin resolution
    ([requirePlugins]), the three invocation modes of [run] (piped buffer,
    path list, write-in-place), the completion callback of [runSingle] and the
    summary chain hanging off [runAll].

    The process is a state ([Proc]) threaded through a small monad whose
    results distinguish a normal return, a thrown JavaScript exception and a
    call of [process.exit].  Promises are settled values; the handlers hanging
    off a pending operation run when the event loop completes that operation,
    in an order given by an explicit schedule.  A rejection nobody handles is
    recorded and decides the exit status when the process ends. *)

From Stdlib Require Import Ascii String ZArith.
From Stdlib.Strings Require Import Byte.
From stdpp Require Import gmap strings list fin_maps pretty.

Local Open Scope string_scope.
Local Open Scope list_scope.
Set Warnings "-register-all".

(** ** Data *)

(** A Node [Buffer]. *)
Abbreviation bytes := (list byte).

(** The bytes a JavaScript string puts on a stream. *)
Definition utf8 (s : string) : bytes := list_byte_of_string s.

Inductive Error : Type :=
  | TypeError (message : string)
  | PluginFailure (item : string) (reason : string)
  | ReadFailure (path : string).

(** A promise after it has settled. *)
Inductive Settled (A : Type) : Type :=
  | Fulfilled (a : A)
  | Rejected (e : Error).
Arguments Fulfilled {A} a.
Arguments Rejected {A} e.

(** The values that travel down the [runAll] chain: the callback of
    [runSingle] returns [undefined] on every path, [Promise.all] collects
    such values in an array. *)
Inductive Value : Type :=
  | VUndefined
  | VArray (elems : list Value).

(** A transformation plugin: bytes in, bytes or a failure out. *)
Inductive PluginResult : Type :=
  | Transformed (b : bytes)
  | Failed (reason : string).

Definition Plugin : Type := bytes → PluginResult.

(** One element of the array [imagemin] resolves to. *)
Record File : Type := mkFile { data : bytes; path : option string }.

(** One call of [imagemin(input, output, {use})], as [cli.js] issues it. *)
Record Call : Type := mkCall {
  call_input : list string;
  call_output : option string;
  call_use : list Plugin
}.

(** The collaborators [cli.js] only consumes. *)
Record Env : Type := mkEnv {
  (** [require(`imagemin-${x}`)()]: [None] when the module cannot be loaded. *)
  resolve : string → option Plugin;
  (** [globby(patterns, {nodir: true})]. *)
  glob : list string → list string;
  (** [process.cwd()], against which relative paths name files. *)
  cwd : string;
  (** [process.stdin.isTTY] and what [getStdin.buffer()] resolves to. *)
  stdin_isTTY : bool;
  stdin_data : bytes
}.

(** ** The process *)

(** What an observer sees of the process.  The disk [fs] holds the regular
    files under their absolute path ([path.resolve] of any way to spell it;
    no links).  [stderr] holds the lines written with [console.error]; the
    rejections the runtime reports on its own are kept apart in [unhandled].
    The spinner is only followed as started or stopped, and [calls] logs the
    calls of [imagemin] in the order they are issued. *)
Record Proc : Type := mkProc {
  stdout : bytes;
  stderr : list string;
  fs : gmap string bytes;
  spinning : bool;
  calls : list Call;
  unhandled : list Error
}.

Definition fresh (files : gmap string bytes) : Proc :=
  {| stdout := []; stderr := []; fs := files; spinning := false;
     calls := []; unhandled := [] |}.

Inductive Res (A : Type) : Type :=
  | Ret (a : A) (s : Proc)
  | Thrown (e : Error) (s : Proc)
  | Exit (code : Z) (s : Proc).
Arguments Ret {A} a s.
Arguments Thrown {A} e s.
Arguments Exit {A} code s.

Definition M (A : Type) : Type := Proc → Res A.

Definition ret {A} (a : A) : M A := fun s => Ret a s.

Definition bind {A B} (m : M A) (k : A → M B) : M B := fun s =>
  match m s with
  | Ret a s' => k a s'
  | Thrown e s' => Thrown e s'
  | Exit c s' => Exit c s'
  end.

Notation "x <- m ;; k" := (bind m (fun x => k))
  (at level 100, m at next level, right associativity).
Notation "m ;; k" := (bind m (fun _ => k))
  (at level 100, right associativity).

Definition throw {A} (e : Error) : M A := fun s => Thrown e s.

(** [process.exit(code)]: nothing runs afterwards, no handler catches it. *)
Definition process_exit {A} (code : Z) : M A := fun s => Exit code s.

Definition final_state {A} (r : Res A) : Proc :=
  match r with Ret _ s | Thrown _ s | Exit _ s => s end.

(** The status the shell sees.  [meow], called on line 13 with the options
    of its version 3, installs [loud-rejection]: a rejection nobody handles
    does not stop the process, and when the event loop has run dry the
    rejections that are left make the status 1.  Otherwise the status is the
    argument of [process.exit], 1 for an exception that reaches the top of the
    stack, and 0. *)
Definition exit_status {A} (r : Res A) : Z :=
  match r with
  | Ret _ s => match unhandled s with [] => 0 | _ :: _ => 1 end
  | Thrown _ _ => 1
  | Exit c _ => c
  end.

Definition stdout_write (b : bytes) : M unit := fun s =>
  Ret tt {| stdout := stdout s ++ b; stderr := stderr s; fs := fs s;
            spinning := spinning s; calls := calls s; unhandled := unhandled s |}.

Definition nl : string := String (ascii_of_nat 10) "".

Definition console_log (line : string) : M unit :=
  stdout_write (utf8 (line +:+ nl)).

Definition console_error (line : string) : M unit := fun s =>
  Ret tt {| stdout := stdout s; stderr := stderr s ++ [line]; fs := fs s;
            spinning := spinning s; calls := calls s; unhandled := unhandled s |}.

Definition set_spinner (b : bool) : M unit := fun s =>
  Ret tt {| stdout := stdout s; stderr := stderr s; fs := fs s;
            spinning := b; calls := calls s; unhandled := unhandled s |}.

Definition log_call (c : Call) : M unit := fun s =>
  Ret tt {| stdout := stdout s; stderr := stderr s; fs := fs s;
            spinning := spinning s; calls := calls s ++ [c]; unhandled := unhandled s |}.

(** A write at a key of the disk. *)
Definition write_file (p : string) (b : bytes) : M unit := fun s =>
  Ret tt {| stdout := stdout s; stderr := stderr s; fs := <[p := b]> (fs s);
            spinning := spinning s; calls := calls s; unhandled := unhandled s |}.

Definition read_fs : M (gmap string bytes) := fun s => Ret (fs s) s.

(** ** Node's [path] module (POSIX flavour), as far as it is used

    [cli.js] calls [path.dirname]; [imagemin] places its output with
    [path.join(output, path.basename(input))]. *)

Definition is_slash (c : ascii) : bool := Ascii.eqb c "/"%char.

(** The backwards scan of [path.dirname] over the characters after the
    first, last character first: trailing slashes are skipped, then the last
    segment, and what precedes the slash found is kept. *)
Fixpoint dirname_scan (r : list ascii) (matchedSlash : bool) : option (list ascii) :=
  match r with
  | [] => None
  | c :: r' =>
      if is_slash c
      then (if matchedSlash then dirname_scan r' true else Some r')
      else dirname_scan r' false
  end.

Definition dirname (p : string) : string :=
  match list_ascii_of_string p with
  | [] => "."
  | c0 :: rest =>
      match dirname_scan (rev rest) true with
      | None => if is_slash c0 then "/" else "."
      | Some [] => if is_slash c0 then "//" else string_of_list_ascii [c0]
      | Some r' => string_of_list_ascii (c0 :: rev r')
      end
  end.

Fixpoint drop_slashes (r : list ascii) : list ascii :=
  match r with
  | c :: r' => if is_slash c then drop_slashes r' else r
  | [] => []
  end.

Fixpoint take_segment (r : list ascii) : list ascii :=
  match r with
  | c :: r' => if is_slash c then [] else c :: take_segment r'
  | [] => []
  end.

Definition basename (p : string) : string :=
  string_of_list_ascii
    (rev (take_segment (drop_slashes (rev (list_ascii_of_string p))))).

Fixpoint segments (cs : list ascii) : list (list ascii) :=
  match cs with
  | [] => [[]]
  | c :: cs' =>
      if is_slash c then [] :: segments cs'
      else match segments cs' with
           | seg :: rest => (c :: seg) :: rest
           | [] => [[c]]
           end
  end.

(** One segment of [normalizeString]; the stack holds the kept segments,
    innermost first. *)
Definition push_segment (allowAboveRoot : bool) (stack : list string) (seg : string)
  : list string :=
  if String.eqb seg "" || String.eqb seg "." then stack
  else if String.eqb seg ".." then
    match stack with
    | top :: below =>
        if String.eqb top ".."
        then (if allowAboveRoot then seg :: stack else stack)
        else below
    | [] => if allowAboveRoot then [seg] else []
    end
  else seg :: stack.

Definition join_slash (segs : list string) : string :=
  match segs with
  | [] => ""
  | s :: rest => fold_left (fun acc x => acc +:+ "/" +:+ x) rest s
  end.

Definition path_segments (p : string) : list string :=
  string_of_list_ascii <$> segments (list_ascii_of_string p).

(** The segments of [p], pushed one after the other. *)
Definition walk (allowAboveRoot : bool) (p : string) (stack : list string)
  : list string :=
  fold_left (push_segment allowAboveRoot) (path_segments p) stack.

Definition normalizeString (p : string) (allowAboveRoot : bool) : string :=
  join_slash (rev (walk allowAboveRoot p [])).

Definition normalize (p : string) : string :=
  match list_ascii_of_string p with
  | [] => "."
  | c0 :: _ =>
      let isAbsolute := is_slash c0 in
      let trailingSeparator :=
        match last (list_ascii_of_string p) with
        | Some c => is_slash c
        | None => false
        end in
      let body := normalizeString p (negb isAbsolute) in
      if String.eqb body "" then
        (if isAbsolute then "/" else if trailingSeparator then "./" else ".")
      else
        let body := if trailingSeparator then body +:+ "/" else body in
        if isAbsolute then "/" +:+ body else body
  end.

(** [path.join(a, b)]: empty arguments are left out. *)
Definition path_join (a b : string) : string :=
  match String.eqb a "", String.eqb b "" with
  | true, true => "."
  | true, false => normalize b
  | false, true => normalize a
  | false, false => normalize (a +:+ "/" +:+ b)
  end.

Definition is_absolute (p : string) : bool :=
  match list_ascii_of_string p with
  | c :: _ => is_slash c
  | [] => false
  end.

(** [path.resolve(p)] in the working directory [cwd]: the absolute path,
    without [.], [..], doubled or trailing slashes, that [p] names. *)
Definition path_resolve (cwd p : string) : string :=
  let from_p := if String.eqb p "" then "" else p +:+ "/" in
  let text :=
    if is_absolute p then from_p
    else if String.eqb cwd "" then from_p
    else cwd +:+ "/" +:+ from_p in
  let resolvedAbsolute := is_absolute text in
  let body := normalizeString text (negb resolvedAbsolute) in
  if resolvedAbsolute then "/" +:+ body
  else if String.eqb body "" then "." else body.

(** ** [strip-indent] and [String.prototype.trim]

    A character is a code unit below 256. *)

Definition is_blank (c : ascii) : bool :=
  Ascii.eqb c " "%char || Ascii.eqb c "009"%char.

Definition is_terminator (c : ascii) : bool :=
  Ascii.eqb c "010"%char || Ascii.eqb c "013"%char.

(** The class [\s], which is also what [trim] removes. *)
Definition is_space (c : ascii) : bool :=
  is_blank c || is_terminator c || Ascii.eqb c "011"%char
  || Ascii.eqb c "012"%char || Ascii.eqb c "160"%char.

(** The lines of a text, each with the terminator that ends it: the places
    where [^] matches under the [m] flag. *)
Fixpoint lines (cs : list ascii) : list (list ascii * option ascii) :=
  match cs with
  | [] => [([], None)]
  | c :: cs' =>
      if is_terminator c then ([], Some c) :: lines cs'
      else match lines cs' with
           | (l, t) :: rest => (c :: l, t) :: rest
           | [] => [([c], None)]
           end
  end.

Fixpoint unlines (ls : list (list ascii * option ascii)) : list ascii :=
  match ls with
  | [] => []
  | (l, t) :: rest =>
      l ++ match t with Some c => c :: unlines rest | None => unlines rest end
  end.

Fixpoint skip_blanks (l : list ascii) : list ascii :=
  match l with
  | c :: l' => if is_blank c then skip_blanks l' else l
  | [] => []
  end.

Fixpoint count_blanks (l : list ascii) : nat :=
  match l with
  | c :: l' => if is_blank c then S (count_blanks l') else 0
  | [] => 0
  end.

(** The length of the match of [/^[ \t]*(?=\S)/] on a line, if it matches. *)
Definition line_indent (l : list ascii) : option nat :=
  match skip_blanks l with
  | c :: _ => if is_space c then None else Some (count_blanks l)
  | [] => None
  end.

Fixpoint min_indent (ls : list (list ascii * option ascii)) : option nat :=
  match ls with
  | [] => None
  | (l, _) :: rest =>
      match line_indent l, min_indent rest with
      | Some n, Some m => Some (Nat.min n m)
      | Some n, None => Some n
      | None, rest_min => rest_min
      end
  end.

(** [/^[ \t]{n}/] replaced by nothing on a line. *)
Definition strip_line (n : nat) (l : list ascii) : list ascii :=
  if (n <=? count_blanks l)%nat then drop n l else l.

Definition stripIndent (str : string) : string :=
  let cs := list_ascii_of_string str in
  match min_indent (lines cs) with
  | None => str
  | Some 0%nat => str
  | Some n =>
      string_of_list_ascii
        (unlines ((fun lt : list ascii * option ascii => (strip_line n lt.1, lt.2))
                    <$> lines cs))
  end.

Fixpoint trim_start (l : list ascii) : list ascii :=
  match l with
  | c :: l' => if is_space c then trim_start l' else l
  | [] => []
  end.

Definition trim_end (l : list ascii) : list ascii := rev (trim_start (rev l)).

Definition trim (str : string) : string :=
  string_of_list_ascii (trim_end (trim_start (list_ascii_of_string str))).

(** ** The transformation library

    [imagemin] and [imagemin.buffer] are not part of [cli.js]; the model
    below is what [cli.js] relies on. *)

(** JavaScript truthiness of an optional string such as [opts.outDir]: the
    empty string counts as absent. *)
Definition truthy (o : option string) : bool :=
  match o with
  | Some s => negb (String.eqb s "")
  | None => false
  end.

(** The key of the disk a path names. *)
Definition file_key (env : Env) (p : string) : string := path_resolve (cwd env) p.

(** Modelled from the spec: the plugin chain of the Transform Runner, which is
    missing from the sources.  Each plugin is applied in order to the bytes the
    previous one produced; the first failure aborts the chain. *)
Definition pPipe (use : list Plugin) (b : bytes) : PluginResult :=
  fold_left
    (fun acc p => match acc with Transformed b' => p b' | Failed r => Failed r end)
    use (Transformed b).

(** Modelled from the spec: the Transform Runner on one path item, missing
    from the sources.  The bytes are read from disk, the chain is run, and with
    a destination directory the result carries the path of the item's base
    name under that directory, [path.join(output, path.basename(x))], and is
    to be written there; this is what lets write-in-place overwrite the
    source. *)
Definition handleFile (env : Env) (files : gmap string bytes) (output : option string)
    (use : list Plugin) (x : string) : Settled File * list (string * bytes) :=
  match files !! file_key env x with
  | None => (Rejected (ReadFailure x), [])
  | Some raw =>
      match pPipe use raw with
      | Failed reason => (Rejected (PluginFailure x reason), [])
      | Transformed buf =>
          if truthy output then
            let dest := path_join (default "" output) (basename x) in
            (Fulfilled {| data := buf; path := Some dest |},
             [(file_key env dest, buf)])
          else (Fulfilled {| data := buf; path := None |}, [])
      end
  end.

(** [Promise.all] over promises that have settled: the values in order, or
    the first rejection. *)
Fixpoint all_settled {A} (l : list (Settled A)) : Settled (list A) :=
  match l with
  | [] => Fulfilled []
  | Rejected e :: _ => Rejected e
  | Fulfilled a :: rest =>
      match all_settled rest with
      | Fulfilled as' => Fulfilled (a :: as')
      | Rejected e => Rejected e
      end
  end.

(** A call of [imagemin] in flight: what its promise will settle to and the
    files it writes before that, by key of the disk.  The inputs are read when
    the call is issued, the outputs are on disk when it completes. *)
Record Job : Type := mkJob {
  outcome : Settled (list File);
  writes : list (string * bytes)
}.

(** Modelled from the spec: the batch call of the Transform Runner, missing
    from the sources.  The patterns are expanded (directories excluded) and
    every match goes through [handleFile]. *)
Definition imagemin (env : Env) (files : gmap string bytes) (input : list string)
    (output : option string) (use : list Plugin) : Job :=
  let rs := handleFile env files output use <$> glob env input in
  {| outcome := all_settled (fst <$> rs); writes := concat (snd <$> rs) |}.

(** Modelled from the spec: the Transform Runner on a buffer item, missing from
    the sources. *)
Definition imagemin_buffer (input : bytes) (use : list Plugin) : Settled bytes :=
  match pPipe use input with
  | Transformed buf => Fulfilled buf
  | Failed reason => Rejected (PluginFailure "stdin buffer" reason)
  end.

(** ** Promises *)

(** [p.then(f)] once [p] has settled: [f] runs on a fulfilled value and what
    it throws rejects the derived promise; [process.exit] ends everything. *)
Definition then_ {A B} (p : Settled A) (f : A → M B) : M (Settled B) := fun s =>
  match p with
  | Rejected e => Ret (Rejected e) s
  | Fulfilled a =>
      match f a s with
      | Ret b s' => Ret (Fulfilled b) s'
      | Thrown e s' => Ret (Rejected e) s'
      | Exit c s' => Exit c s'
      end
  end.

(** [p.catch(h)]. *)
Definition catch_ {A} (p : Settled A) (h : Error → M A) : M (Settled A) := fun s =>
  match p with
  | Fulfilled a => Ret (Fulfilled a) s
  | Rejected e =>
      match h e s with
      | Ret b s' => Ret (Fulfilled b) s'
      | Thrown e' s' => Ret (Rejected e') s'
      | Exit c s' => Exit c s'
      end
  end.

(** A promise at the end of a chain, with no handler attached: a rejection
    is kept for the report at exit, and the process goes on. *)
Definition unobserved {A} (p : Settled A) : M unit := fun s =>
  match p with
  | Fulfilled _ => Ret tt s
  | Rejected e =>
      Ret tt {| stdout := stdout s; stderr := stderr s; fs := fs s;
                spinning := spinning s; calls := calls s;
                unhandled := unhandled s ++ [e] |}
  end.

(** The pending operations complete in the order [sched] lists them; [step i]
    is what runs when operation [i] completes. *)
Fixpoint event_loop {St} (step : nat → St → M St) (sched : list nat) (st : St) : M St :=
  match sched with
  | [] => ret st
  | i :: rest => st' <- step i st;; event_loop step rest st'
  end.

(** ** [cli.js] *)

(** The parsed flags.  [--plugin] is a string when given once and an array
    when repeated; [None] is a flag that was not given. *)
Inductive PluginFlag : Type :=
  | One (name : string)
  | Many (names : list string).

Record Opts : Type := mkOpts {
  plugin : option PluginFlag;
  outDir : option string;
  write : bool
}.

Definition DEFAULT_PLUGINS : list string :=
  ["gifsicle"; "jpegtran"; "optipng"; "svgo"].

(** [Object.assign({plugin: DEFAULT_PLUGINS}, opts)]. *)
Definition assign_defaults (opts : Opts) : Opts :=
  {| plugin := Some (default (Many DEFAULT_PLUGINS) (plugin opts));
     outDir := outDir opts;
     write := write opts |}.

Definition arrify (v : option PluginFlag) : list string :=
  match v with
  | None => []
  | Some (One name) => [name]
  | Some (Many names) => names
  end.

Definition tab : string := String (ascii_of_nat 9) "".

(** The template literal of lines 56-63 with the name interpolated. *)
Definition unknown_plugin_template (x : string) : string :=
  nl +:+
  tab +:+ tab +:+ tab +:+ "Unknown plugin: " +:+ x +:+ nl +:+
  nl +:+
  tab +:+ tab +:+ tab +:+ "Did you forget to install the plugin?" +:+ nl +:+
  tab +:+ tab +:+ tab +:+ "You can install it with:" +:+ nl +:+
  nl +:+
  tab +:+ tab +:+ tab +:+ "  $ npm install -g imagemin-" +:+ x +:+ nl +:+
  tab +:+ tab.

(** What line 56 hands to [console.error]. *)
Definition unknown_plugin_message (x : string) : string :=
  trim (stripIndent (unknown_plugin_template x)).

Fixpoint requirePlugins (env : Env) (plugins : list string) : M (list Plugin) :=
  match plugins with
  | [] => ret []
  | x :: rest =>
      h <- match resolve env x with
           | Some p => ret p
           | None => console_error (unknown_plugin_message x);; process_exit 1
           end;;
      hs <- requirePlugins env rest;;
      ret (h :: hs)
  end.

Definition multiple_files_message : string :=
  "Cannot write multiple files to stdout, specify a `--out-dir`".

(** The callback [runSingle] hangs on the promise of [imagemin]. *)
Definition runSingle_then (outDir : option string) (files : list File) : M Value :=
  if negb (truthy outDir) && (length files =? 0)%nat then ret VUndefined
  else
    (if negb (truthy outDir) && (1 <? length files)%nat
     then console_error multiple_files_message;; process_exit 1
     else ret tt);;
    if negb (truthy outDir) then
      match files with
      | f :: _ => stdout_write (data f)
      | [] => throw (TypeError "Cannot read property 'data' of undefined")
      end;;
      ret VUndefined
    else ret VUndefined.

(** [runSingle(input, opts)] up to the point where [imagemin] is in flight. *)
Definition runSingle (env : Env) (use : list Plugin) (input : list string)
    (outDir : option string) : M Job :=
  log_call {| call_input := input; call_output := outDir; call_use := use |};;
  files <- read_fs;;
  ret (imagemin env files input outDir use).

Fixpoint apply_writes (ws : list (string * bytes)) : M unit :=
  match ws with
  | [] => ret tt
  | (p, b) :: rest => write_file p b;; apply_writes rest
  end.

(** The call of [imagemin] completes and the promise [runSingle] returned
    settles. *)
Definition runSingle_settle (j : Job) (outDir : option string) : M (Settled Value) :=
  apply_writes (writes j);;
  then_ (outcome j) (runSingle_then outDir).

(** Line 88, attached to the write-in-place branch only. *)
Definition normalise (results : Value) : M Value :=
  ret (match results with
       | VArray _ => results
       | VUndefined => VArray [results]
       end).

(** What reading [.length] of [undefined] throws. *)
Definition length_of_undefined : Error :=
  TypeError "Cannot read property 'length' of undefined".

(** [results.length]. *)
Definition length_of (results : Value) : M nat :=
  match results with
  | VArray elems => ret (length elems)
  | VUndefined => throw length_of_undefined
  end.

Definition plur (word : string) (count : nat) : string :=
  if (count =? 1)%nat then word else word +:+ "s".

Definition summary_line (n : nat) : string :=
  pretty n +:+ " " +:+ plur "image" n +:+ " minified".

(** Lines 91-94. *)
Definition summarise (results : Value) : M unit :=
  set_spinner false;;
  n <- length_of results;;
  console_log (summary_line n).

(** Lines 95-98. *)
Definition rethrow (err : Error) : M unit :=
  set_spinner false;;
  throw err.

(** Lines 90-98: the handlers hanging off [runAll], run when it settles. *)
Definition report (runAll : Settled Value) : M unit :=
  r <- then_ runAll summarise;;
  c <- catch_ r rethrow;;
  unobserved c.

(** The state [Promise.all] keeps for the promises it was given. *)
Record Join : Type := mkJoin {
  remaining : nat;
  values : list Value;
  settled : bool
}.

Definition settle (st : Join) : Join :=
  {| remaining := remaining st; values := values st; settled := true |}.

(** Write-in-place: the call of [imagemin] for item [i] completes. *)
Definition item_done (jobs : list (string * Job)) (i : nat) (st : Join) : M Join :=
  match jobs !! i with
  | None => ret st
  | Some (x, j) =>
      q <- runSingle_settle j (Some (dirname x));;
      match q with
      | Fulfilled v =>
          let st' := {| remaining := pred (remaining st);
                        values := <[i := v]> (values st);
                        settled := settled st |} in
          if (remaining st' =? 0)%nat && negb (settled st) then
            results <- then_ (Fulfilled (VArray (values st'))) normalise;;
            report results;;
            ret (settle st')
          else ret st'
      | Rejected e =>
          if settled st then ret st
          else
            results <- then_ (Rejected e) normalise;;
            report results;;
            ret (settle st)
      end
  end.

(** [paths.map(x => runSingle([x], {outDir: path.dirname(x)}, use))]. *)
Fixpoint dispatch (env : Env) (use : list Plugin) (paths : list string)
  : M (list (string * Job)) :=
  match paths with
  | [] => ret []
  | x :: rest =>
      j <- runSingle env use [x] (Some (dirname x));;
      js <- dispatch env use rest;;
      ret ((x, j) :: js)
  end.

(** Path list without [--write]: operation 0 is the call whose promise is
    [runAll], operation 1 the call of line 102. *)
Definition paths_done (outDir : option string) (j1 j2 : Job)
    (i : nat) (st : unit) : M unit :=
  match i with
  | 0%nat => runAll <- runSingle_settle j1 outDir;; report runAll
  | 1%nat => second <- runSingle_settle j2 outDir;; unobserved second
  | _ => ret st
  end.

Inductive Input : Type :=
  | Buffer (b : bytes)
  | Paths (patterns : list string).

(** [run(input, opts)] and the event loop after it, until nothing is
    pending.  [sched] is the order in which the calls of [imagemin] complete. *)
Definition run (env : Env) (input : Input) (opts : Opts) (sched : list nat) : M unit :=
  let opts := assign_defaults opts in
  use <- requirePlugins env (arrify (plugin opts));;
  match input with
  | Buffer b =>
      written <- then_ (imagemin_buffer b use) stdout_write;;
      unobserved written
  | Paths input =>
      (if truthy (outDir opts) || write opts then set_spinner true else ret tt);;
      if negb (write opts) then
        j1 <- runSingle env use input (outDir opts);;
        j2 <- runSingle env use input (outDir opts);;
        event_loop (paths_done (outDir opts) j1 j2) sched tt
      else
        let paths := glob env input in
        jobs <- dispatch env use paths;;
        let all := {| remaining := length jobs;
                      values := replicate (length jobs) VUndefined;
                      settled := false |} in
        if (length jobs =? 0)%nat then
          results <- then_ (Fulfilled (VArray [])) normalise;;
          report results
        else
          event_loop (item_done jobs) sched all;;
          ret tt
  end.

(** Lines 125-134. *)
Definition main (env : Env) (input : list string) (flags : Opts) (sched : list nat)
  : M unit :=
  (if (length input =? 0)%nat && stdin_isTTY env
   then console_error "Specify at least one filename";; process_exit 1
   else ret tt);;
  if negb (length input =? 0)%nat
  then run env (Paths input) flags sched
  else run env (Buffer (stdin_data env)) flags sched.

(** A whole process on a given disk. *)
Definition exec (m : M unit) (files : gmap string bytes) : Res unit := m (fresh files).

(** ** Vocabulary for the statements *)

(** Every requested name loads, and [hs] are the handles, name by name. *)
Definition resolves_to (env : Env) (names : list string) (hs : list Plugin) : Prop :=
  Forall2 (fun x h => resolve env x = Some h) names hs.

(** The process [s] with another disk. *)
Definition on_disk (m : gmap string bytes) (s : Proc) : Proc :=
  {| stdout := stdout s; stderr := stderr s; fs := m; spinning := spinning s;
     calls := calls s; unhandled := unhandled s |}.

(** The disk after a list of writes. *)
Definition put_all (ws : list (string * bytes)) (m : gmap string bytes)
  : gmap string bytes :=
  foldl (fun m pb => <[pb.1 := pb.2]> m) m ws.

Definition job_writes (jobs : list (string * Job)) (i : nat) : list (string * bytes) :=
  match jobs !! i with
  | Some (_, j) => writes j
  | None => []
  end.

(** The disk after the operations of [sched] have completed. *)
Definition fs_after (jobs : list (string * Job)) (sched : list nat)
    (m : gmap string bytes) : gmap string bytes :=
  foldl (fun m i => put_all (job_writes jobs i) m) m sched.

(** A computation that leaves the log of [imagemin] calls alone, however it
    ends. *)
Definition keeps_calls {A} (m : M A) : Prop :=
  ∀ s, calls (final_state (m s)) = calls s.

(** What the callback of [runSingle] puts on standard output for the files
    [imagemin] resolved to, when it does not end the process. *)
Definition to_stdout (outDir : option string) (files : list File) : bytes :=
  if truthy outDir then []
  else match files with
       | f :: _ => data f
       | [] => []
       end.

(** Where [imagemin] puts the output for [x] under the directory [o]. *)
Definition destination (o : string) (x : string) : string :=
  path_join o (basename x).

(** What one matched file goes through in write-in-place mode: the call
    [imagemin([x], path.dirname(x), {use})]. *)
Definition item_job (env : Env) (files : gmap string bytes) (use : list Plugin)
    (x : string) : Job :=
  imagemin env files [x] (Some (dirname x)) use.

(** The jobs write-in-place dispatches for the matched [paths]. *)
Definition item_jobs (env : Env) (files : gmap string bytes) (use : list Plugin)
    (paths : list string) : list (string * Job) :=
  (fun x => (x, item_job env files use x)) <$> paths.

(** A matched file write-in-place does handle, and the bytes [buf] the chain
    makes of it: handed to [imagemin] as a pattern the path expands to itself,
    the file can be read and the chain succeeds on its bytes. *)
Definition rewritable (env : Env) (files : gmap string bytes) (use : list Plugin)
    (x : string) (buf : bytes) : Prop :=
  glob env [x] = [x]
  ∧ ∃ raw, files !! file_key env x = Some raw ∧ pPipe use raw = Transformed buf.


(** A segment of a path that counts when the path is followed: neither
    empty nor [.]. *)
Definition counts (seg : string) : bool :=
  negb (String.eqb seg "" || String.eqb seg ".").

(** The segments that count. *)
Definition kept (segs : list string) : list string :=
  filter (fun seg => counts seg = true) segs.

Definition slash : ascii := "/"%char.

(** A run of characters without a slash. *)
Definition plain (l : list ascii) : Prop :=
  forallb (fun c => negb (is_slash c)) l = true.

(** A stack of segments as [normalizeString] keeps it: every segment counts
    and has no slash. *)
Definition tidy (stack : list string) : Prop :=
  Forall (fun seg => counts seg = true ∧ plain (list_ascii_of_string seg)) stack.

(** A run of characters without a line terminator. *)
Definition on_one_line (l : list ascii) : Prop :=
  forallb (fun c => negb (is_terminator c)) l = true.

Definition newline : ascii := ascii_of_nat 10.

(** A computation that leaves an observation of the process alone, however
    it ends. *)
Definition preserves {A B} (obs : Proc → B) (m : M A) : Prop :=
  ∀ s, obs (final_state (m s)) = obs s.

(** A computation whose only way to end the process is [process.exit(1)]. *)
Definition exits_one {A} (m : M A) : Prop :=
  ∀ s c s', m s = Exit c s' → c = 1%Z.

(** A computation that returns or ends the process with status 1, and lets
    no exception escape. *)
Definition tame {A} (m : M A) : Prop :=
  ∀ s, match m s with
       | Ret _ _ => True
       | Thrown _ _ => False
       | Exit c _ => c = 1%Z
       end.

(** The status of a process that reaches the end of its event loop in [s]. *)
Definition status_at_end (s : Proc) : Z :=
  match unhandled s with [] => 0%Z | _ :: _ => 1%Z end.

(** Whether [needle] occurs in [text]. *)
Fixpoint occurs_in (needle text : list ascii) : bool :=
  bool_decide (take (length needle) text = needle)
  || match text with
     | [] => false
     | _ :: text' => occurs_in needle text'
     end.

(** ** A sample world

    Three plugins that load ([keep] leaves the bytes alone, [flip] reverses
    them, [picky] rejects a buffer that starts with a zero byte), and a
    working directory with a few images, one of them with brackets in its
    name. *)

Definition keep : Plugin := fun b => Transformed b.

Definition flip : Plugin := fun b => Transformed (rev b).

Definition picky : Plugin := fun b =>
  match b with
  | x00 :: _ => Failed "unsupported header"
  | _ => Transformed (rev b)
  end.

Definition sample_resolve (name : string) : option Plugin :=
  if String.eqb name "keep" then Some keep
  else if String.eqb name "flip" then Some flip
  else if String.eqb name "picky" then Some picky
  else None.

Definition sample_files : list string := ["a/b.png"; "a/c.png"; "d.png"; "./d.png"].

(** The bracket pattern [pics/[1].png] stands for [pics/1.png], which does
    not exist; the file of that very name is only found by [pics/*]. *)
Definition sample_glob_one (pattern : string) : list string :=
  if String.eqb pattern "a/*.png" then ["a/b.png"; "a/c.png"]
  else if String.eqb pattern "pics/*" then ["pics/[1].png"]
  else if bool_decide (pattern ∈ sample_files) then [pattern]
  else [].

Definition sample_glob (patterns : list string) : list string :=
  mbind sample_glob_one patterns.

Definition sample_env : Env :=
  {| resolve := sample_resolve; glob := sample_glob; cwd := "/work";
     stdin_isTTY := false; stdin_data := [x89; x50; x4e; x47] |}.

Definition sample_disk : gmap string bytes :=
  <["/work/a/b.png" := [x01; x02; x03]]>
    (<["/work/a/c.png" := [x00; x05]]>
       (<["/work/d.png" := [x07; x08]]>
          (<["/work/pics/[1].png" := [x0a; x0b]]> ∅))).

Definition with_plugin (name : string) (o : option string) (w : bool) : Opts :=
  {| plugin := Some (One name); outDir := o; write := w |}.

(** * Properties *)

(** ** The path functions on sample paths *)

Example dirname_nested : dirname "a/b.png" = "a".
Proof. reflexivity. Qed.

Example dirname_bare : dirname "b.png" = ".".
Proof. reflexivity. Qed.

Example dirname_doubled : dirname "a//b" = "a/".
Proof. reflexivity. Qed.

Example dirname_root : dirname "/a" = "/" ∧ dirname "//a" = "//" ∧ dirname "/a/b/" = "/a".
Proof. repeat split. Qed.

Example basename_nested : basename "a/b.png" = "b.png" ∧ basename "a/b/" = "b" ∧ basename "/" = "".
Proof. repeat split. Qed.

Example join_back_nested : path_join (dirname "a/b.png") (basename "a/b.png") = "a/b.png".
Proof. reflexivity. Qed.

Example join_back_bare : path_join (dirname "b.png") (basename "b.png") = "b.png".
Proof. reflexivity. Qed.

Example join_back_dotted : path_join (dirname "./a/b.png") (basename "./a/b.png") = "a/b.png".
Proof. reflexivity. Qed.

Example join_up : path_join "a/../.." "x" = "../x" ∧ path_join "/a/../.." "x" = "/x".
Proof. repeat split. Qed.

Example resolve_spellings :
  path_resolve "/work" "./d.png" = "/work/d.png"
  ∧ path_resolve "/work" "a/../d.png" = "/work/d.png"
  ∧ path_resolve "/work" "/x//y/" = "/x/y"
  ∧ path_resolve "/work" "" = "/work"
  ∧ path_resolve "/work" "../../.." = "/".
Proof. repeat split. Qed.

(** ** The monad and the promise combinators *)

Lemma bind_Ret {A B} (m : M A) (k : A → M B) s a s' :
  m s = Ret a s' → bind m k s = k a s'.
Proof. unfold bind. by intros ->. Qed.

Lemma bind_Exit {A B} (m : M A) (k : A → M B) s c s' :
  m s = Exit c s' → bind m k s = Exit c s'.
Proof. unfold bind. by intros ->. Qed.

Lemma event_loop_app {St} (step : nat → St → M St) l1 l2 st s :
  event_loop step (l1 ++ l2) st s =
  match event_loop step l1 st s with
  | Ret st' s' => event_loop step l2 st' s'
  | Thrown e s' => Thrown e s'
  | Exit c s' => Exit c s'
  end.
Proof.
  revert st s. induction l1 as [|i l1 IH]; intros st s; [done|].
  cbn [event_loop app]. unfold bind.
  destruct (step i st s); [apply IH|done|done].
Qed.

Lemma two_orders (sched : list nat) :
  sched ≡ₚ [0; 1]%nat → sched = [0; 1]%nat ∨ sched = [1; 0]%nat.
Proof.
  intros H. pose proof (Permutation_length H) as Hlen.
  destruct sched as [|a [|b [|? ?]]]; try discriminate.
  assert (Ha : a ∈ [0; 1]%nat) by (rewrite <- H; apply elem_of_cons; by left).
  assert (Hb : b ∈ [0; 1]%nat).
  { rewrite <- H. apply elem_of_cons; right. apply elem_of_cons; by left. }
  assert (Hnd : NoDup [a; b]) by (rewrite H; apply (NoDup_seq 0 2)).
  apply NoDup_cons in Hnd as [Hab _]. rewrite list_elem_of_singleton in Hab.
  apply elem_of_cons in Ha as [->|Ha]; apply elem_of_cons in Hb as [->|Hb];
    rewrite ?list_elem_of_singleton in *; subst; auto; congruence.
Qed.

(** A process that ends with a rejection left over has status 1. *)
Lemma status_with_rejection (l : list Error) e : 
  match l ++ [e] with [] => 0%Z | _ :: _ => 1%Z end = 1%Z.
Proof. by destruct l. Qed.

(** ** Plugin resolution *)

Lemma requirePlugins_resolved env names hs s :
  resolves_to env names hs → requirePlugins env names s = Ret hs s.
Proof.
  intros H. induction H as [|x h names hs Hx _ IH]; [done|].
  cbn [requirePlugins]. rewrite Hx.
  unfold bind, ret. by rewrite IH.
Qed.

Lemma requirePlugins_first_unknown env pre y post hs s :
  resolves_to env pre hs →
  resolve env y = None →
  requirePlugins env (pre ++ y :: post) s =
  Exit 1 {| stdout := stdout s;
            stderr := stderr s ++ [unknown_plugin_message y];
            fs := fs s; spinning := spinning s; calls := calls s;
            unhandled := unhandled s |}.
Proof.
  intros Hpre Hy. induction Hpre as [|x h pre hs Hx _ IH].
  - cbn [app requirePlugins]. by rewrite Hy.
  - cbn [app requirePlugins]. rewrite Hx. unfold bind at 1. unfold ret at 1.
    unfold bind at 1. by rewrite IH.
Qed.

Lemma pPipe_identity use b :
  Forall (fun h : Plugin => ∀ b, h b = Transformed b) use →
  pPipe use b = Transformed b.
Proof.
  unfold pPipe. induction 1 as [|h use Hh _ IH]; [done|].
  cbn [fold_left]. by rewrite Hh.
Qed.

(** C9.  The handles come back in the order of the requested names (for
    every list of names that load, the non-empty ones among them), an explicit
    list of names is used as it is, and when no name is given the names
    resolved are gifsicle, jpegtran, optipng, svgo in this order. *)
Theorem plugins_resolved_in_order env (names : list string) hs o w s :
  resolves_to env names hs →
  requirePlugins env names s = Ret hs s
  ∧ arrify (plugin (assign_defaults
                      {| plugin := Some (Many names); outDir := o; write := w |}))
    = names
  ∧ arrify (plugin (assign_defaults {| plugin := None; outDir := o; write := w |}))
    = ["gifsicle"; "jpegtran"; "optipng"; "svgo"].
Proof.
  intros H. split; [by apply requirePlugins_resolved|]. by split.
Qed.

Lemma plugins_resolved_in_order_witness :
  requirePlugins sample_env ["flip"; "keep"] (fresh sample_disk)
  = Ret [flip; keep] (fresh sample_disk).
Proof.
  apply (plugins_resolved_in_order sample_env ["flip"; "keep"]
           [flip; keep] None false (fresh sample_disk)).
  repeat constructor.
Defined.

Lemma run_unresolved env input opts sched s c s' :
  requirePlugins env (arrify (plugin (assign_defaults opts))) s = Exit c s' →
  run env input opts sched s = Exit c s'.
Proof. intros H. unfold run. by apply bind_Exit. Qed.

Lemma run_resolved env input opts sched s hs :
  resolves_to env (arrify (plugin (assign_defaults opts))) hs →
  run env input opts sched s =
  match input with
  | Buffer b =>
      (written <- then_ (imagemin_buffer b hs) stdout_write;;
       unobserved written) s
  | Paths input =>
      ((if truthy (outDir opts) || write opts then set_spinner true else ret tt);;
       if negb (write opts) then
         j1 <- runSingle env hs input (outDir opts);;
         j2 <- runSingle env hs input (outDir opts);;
         event_loop (paths_done (outDir opts) j1 j2) sched tt
       else
         jobs <- dispatch env hs (glob env input);;
         if (length jobs =? 0)%nat then
           results <- then_ (Fulfilled (VArray [])) normalise;;
           report results
         else
           event_loop (item_done jobs) sched
             {| remaining := length jobs;
                values := replicate (length jobs) VUndefined;
                settled := false |};;
           ret tt) s
  end.
Proof.
  intros H. unfold run.
  rewrite (bind_Ret _ _ _ _ _ (requirePlugins_resolved _ _ _ s H)).
  by destruct input.
Qed.

(** C8, at a failing input.  The requested plugin does not load and its
    name holds a line break followed by four tabs.  The process ends with
    status 1 before anything else happens and standard error receives the one
    diagnostic, but [stripIndent], applied after the name was put in, has
    taken three of the tabs away: the name as it was requested occurs nowhere
    in the text. *)
Theorem multiline_name_not_in_diagnostic :
  sample_resolve ("a" +:+ nl +:+ tab +:+ tab +:+ tab +:+ tab +:+ "b") = None
  ∧ exit_status
      (exec (run sample_env (Paths ["d.png"])
               (with_plugin ("a" +:+ nl +:+ tab +:+ tab +:+ tab +:+ tab +:+ "b")
                  None false) [0; 1]%nat) sample_disk)
    = 1%Z
  ∧ stderr (final_state
              (exec (run sample_env (Paths ["d.png"])
                       (with_plugin ("a" +:+ nl +:+ tab +:+ tab +:+ tab +:+ tab +:+ "b")
                          None false) [0; 1]%nat) sample_disk))
    = [ "Unknown plugin: a" +:+ nl +:+ tab +:+ "b" +:+ nl +:+ nl +:+
        "Did you forget to install the plugin?" +:+ nl +:+
        "You can install it with:" +:+ nl +:+ nl +:+
        "  $ npm install -g imagemin-a" +:+ nl +:+ tab +:+ "b" ]
  ∧ occurs_in
      (list_ascii_of_string ("a" +:+ nl +:+ tab +:+ tab +:+ tab +:+ tab +:+ "b"))
      (list_ascii_of_string
         (unknown_plugin_message ("a" +:+ nl +:+ tab +:+ tab +:+ tab +:+ tab +:+ "b")))
    = false
  ∧ occurs_in (list_ascii_of_string "nope")
      (list_ascii_of_string (unknown_plugin_message "nope"))
    = true.
Proof. vm_compute. repeat split. Qed.

(** C10.  With nothing on the command line and a buffer piped in, a
    chain of plugins that each return their input puts exactly the piped
    bytes on standard output, and the process ends with status 0. *)
Theorem stdin_identity_roundtrip env flags sched files hs :
  stdin_isTTY env = false →
  resolves_to env (arrify (plugin (assign_defaults flags))) hs →
  Forall (fun h : Plugin => ∀ b, h b = Transformed b) hs →
  stdout (final_state (exec (main env [] flags sched) files)) = stdin_data env
  ∧ stderr (final_state (exec (main env [] flags sched) files)) = []
  ∧ exit_status (exec (main env [] flags sched) files) = 0%Z.
Proof.
  intros Htty Hres Hid.
  assert (Hrun : exec (main env [] flags sched) files
                 = Ret tt {| stdout := stdin_data env; stderr := []; fs := files;
                             spinning := false; calls := []; unhandled := [] |}).
  { unfold exec, main. cbn [length Nat.eqb andb negb]. rewrite Htty.
    cbn [andb]. unfold bind at 1. unfold ret at 1.
    rewrite (run_resolved _ _ _ _ _ _ Hres).
    unfold imagemin_buffer. by rewrite (pPipe_identity _ _ Hid). }
  by rewrite Hrun.
Qed.

Lemma stdin_identity_roundtrip_witness :
  stdout (final_state (exec (main sample_env []
                               (with_plugin "keep" None false) []) sample_disk))
  = [x89; x50; x4e; x47]
  ∧ stderr (final_state (exec (main sample_env []
                                 (with_plugin "keep" None false) []) sample_disk)) = []
  ∧ exit_status (exec (main sample_env []
                         (with_plugin "keep" None false) []) sample_disk) = 0%Z.
Proof.
  apply (stdin_identity_roundtrip sample_env
           (with_plugin "keep" None false) [] sample_disk [keep]).
  - reflexivity.
  - repeat constructor.
  - repeat constructor.
Defined.

(** ** The pieces of [run] *)

Lemma apply_writes_spec ws s :
  apply_writes ws s = Ret tt (on_disk (put_all ws (fs s)) s).
Proof.
  revert s. induction ws as [|[p b] ws IH]; intros s; [by destruct s|].
  cbn [apply_writes]. unfold bind, write_file. by rewrite IH.
Qed.

Lemma runSingle_spec env use input o s :
  runSingle env use input o s =
  Ret (imagemin env (fs s) input o use)
      {| stdout := stdout s; stderr := stderr s; fs := fs s; spinning := spinning s;
         calls := calls s ++ [{| call_input := input; call_output := o;
                                 call_use := use |}];
         unhandled := unhandled s |}.
Proof. reflexivity. Qed.

Lemma runSingle_then_quiet o fl s :
  truthy o = true ∨ (length fl ≤ 1)%nat →
  runSingle_then o fl s =
  Ret VUndefined
      {| stdout := stdout s ++ to_stdout o fl; stderr := stderr s; fs := fs s;
         spinning := spinning s; calls := calls s; unhandled := unhandled s |}.
Proof.
  intros H. unfold runSingle_then, to_stdout.
  destruct (truthy o) eqn:Ho; cbn [negb andb].
  - unfold bind, ret. rewrite app_nil_r. by destruct s.
  - destruct H as [?|H]; [done|].
    destruct fl as [|f [|g fl]]; cbn [length Nat.eqb Nat.ltb Nat.leb] in *.
    + unfold ret. rewrite app_nil_r. by destruct s.
    + reflexivity.
    + lia.
Qed.

Lemma runSingle_then_many o fl s :
  truthy o = false → (2 ≤ length fl)%nat →
  runSingle_then o fl s =
  Exit 1 {| stdout := stdout s; stderr := stderr s ++ [multiple_files_message];
            fs := fs s; spinning := spinning s; calls := calls s;
            unhandled := unhandled s |}.
Proof.
  intros Ho Hlen. unfold runSingle_then. rewrite Ho. cbn [negb andb].
  destruct fl as [|f [|g fl]]; cbn [length] in Hlen; try lia.
  reflexivity.
Qed.

Lemma runSingle_then_returns o fl s v s' :
  runSingle_then o fl s = Ret v s' → v = VUndefined.
Proof.
  unfold runSingle_then. destruct (truthy o); cbn [negb andb].
  - unfold bind, ret. congruence.
  - destruct fl as [|f [|g fl]]; cbn [length Nat.eqb Nat.ltb Nat.leb];
      unfold bind, ret, stdout_write; cbn; congruence.
Qed.

Lemma runSingle_settle_returns j o s v s' :
  runSingle_settle j o s = Ret (Fulfilled v) s' → v = VUndefined.
Proof.
  unfold runSingle_settle.
  rewrite (bind_Ret _ _ _ _ _ (apply_writes_spec _ _)).
  unfold then_. destruct (outcome j) as [fl|e]; [|congruence].
  destruct (runSingle_then o fl _) as [v' s''|e s''|c s''] eqn:Hcb; try congruence.
  apply runSingle_then_returns in Hcb as ->. congruence.
Qed.

Lemma runSingle_settle_quiet j o fl s :
  outcome j = Fulfilled fl →
  truthy o = true ∨ (length fl ≤ 1)%nat →
  runSingle_settle j o s =
  Ret (Fulfilled VUndefined)
      {| stdout := stdout s ++ to_stdout o fl; stderr := stderr s;
         fs := put_all (writes j) (fs s); spinning := spinning s;
         calls := calls s; unhandled := unhandled s |}.
Proof.
  intros Hj H. unfold runSingle_settle.
  rewrite (bind_Ret _ _ _ _ _ (apply_writes_spec _ _)).
  rewrite Hj. unfold then_. by rewrite runSingle_then_quiet.
Qed.

Lemma runSingle_settle_rejected j o e s :
  outcome j = Rejected e →
  runSingle_settle j o s = Ret (Rejected e) (on_disk (put_all (writes j) (fs s)) s).
Proof.
  intros Hj. unfold runSingle_settle.
  rewrite (bind_Ret _ _ _ _ _ (apply_writes_spec _ _)).
  by rewrite Hj.
Qed.

Lemma runSingle_settle_many j o fl s :
  outcome j = Fulfilled fl → truthy o = false → (2 ≤ length fl)%nat →
  runSingle_settle j o s =
  Exit 1 {| stdout := stdout s; stderr := stderr s ++ [multiple_files_message];
            fs := put_all (writes j) (fs s); spinning := spinning s;
            calls := calls s; unhandled := unhandled s |}.
Proof.
  intros Hj Ho Hlen. unfold runSingle_settle.
  rewrite (bind_Ret _ _ _ _ _ (apply_writes_spec _ _)).
  rewrite Hj. unfold then_. by rewrite runSingle_then_many.
Qed.

(** The summary chain on the three values [runAll] can settle to. *)
Lemma report_undefined s :
  report (Fulfilled VUndefined) s =
  Ret tt {| stdout := stdout s; stderr := stderr s; fs := fs s;
            spinning := false; calls := calls s;
            unhandled := unhandled s ++ [length_of_undefined] |}.
Proof. reflexivity. Qed.

Lemma report_rejected e s :
  report (Rejected e) s =
  Ret tt {| stdout := stdout s; stderr := stderr s; fs := fs s;
            spinning := false; calls := calls s;
            unhandled := unhandled s ++ [e] |}.
Proof. reflexivity. Qed.

Lemma report_array elems s :
  report (Fulfilled (VArray elems)) s =
  Ret tt {| stdout := stdout s ++ utf8 (summary_line (length elems) +:+ nl);
            stderr := stderr s; fs := fs s; spinning := false; calls := calls s;
            unhandled := unhandled s |}.
Proof. reflexivity. Qed.

(** Path list without [--write]: [imagemin] is called twice on the same
    arguments before anything completes. *)
Lemma run_paths_spec env input opts sched s hs :
  resolves_to env (arrify (plugin (assign_defaults opts))) hs →
  write opts = false →
  run env (Paths input) opts sched s =
  event_loop
    (paths_done (outDir opts)
       (imagemin env (fs s) input (outDir opts) hs)
       (imagemin env (fs s) input (outDir opts) hs))
    sched tt
    {| stdout := stdout s; stderr := stderr s; fs := fs s;
       spinning := if truthy (outDir opts) then true else spinning s;
       calls := calls s ++ [ {| call_input := input; call_output := outDir opts;
                                call_use := hs |};
                             {| call_input := input; call_output := outDir opts;
                                call_use := hs |} ];
       unhandled := unhandled s |}.
Proof.
  intros Hres Hw. rewrite (run_resolved _ _ _ _ _ _ Hres). rewrite Hw.
  cbn [orb negb]. rewrite orb_false_r.
  set (c := {| call_input := input; call_output := outDir opts; call_use := hs |}).
  replace (calls s ++ [c; c]) with ((calls s ++ [c]) ++ [c]) by (by rewrite <- app_assoc).
  destruct (truthy (outDir opts)); [reflexivity|by destruct s].
Qed.

(** *** Nothing after the dispatch touches the log of calls *)

Lemma keeps_calls_bind {A B} (m : M A) (k : A → M B) :
  keeps_calls m → (∀ a, keeps_calls (k a)) → keeps_calls (bind m k).
Proof.
  intros Hm Hk s. unfold bind. specialize (Hm s).
  destruct (m s) as [a s'|e s'|c s']; cbn in *; [|done|done].
  by rewrite Hk.
Qed.

Lemma keeps_calls_then {A B} (p : Settled A) (f : A → M B) :
  (∀ a, keeps_calls (f a)) → keeps_calls (then_ p f).
Proof.
  intros Hf s. unfold then_. destruct p as [a|e]; [|done].
  specialize (Hf a s). by destruct (f a s).
Qed.

Lemma keeps_calls_catch {A} (p : Settled A) (h : Error → M A) :
  (∀ e, keeps_calls (h e)) → keeps_calls (catch_ p h).
Proof.
  intros Hh s. unfold catch_. destruct p as [a|e]; [done|].
  specialize (Hh e s). by destruct (h e s).
Qed.

Lemma keeps_calls_unobserved {A} (p : Settled A) : keeps_calls (unobserved p).
Proof. intros s. unfold unobserved. by destruct p. Qed.

Lemma keeps_calls_apply_writes ws : keeps_calls (apply_writes ws).
Proof. intros s. by rewrite apply_writes_spec. Qed.

Lemma keeps_calls_runSingle_then o fl : keeps_calls (runSingle_then o fl).
Proof.
  intros s. unfold runSingle_then.
  destruct (truthy o); cbn [negb andb]; [done|].
  destruct fl as [|f [|g fl]]; done.
Qed.

Lemma keeps_calls_report p : keeps_calls (report p).
Proof.
  apply keeps_calls_bind.
  - apply keeps_calls_then. intros [|elems] s; done.
  - intros r. apply keeps_calls_bind; [|intros; apply keeps_calls_unobserved].
    apply keeps_calls_catch. by intros e s.
Qed.

Lemma keeps_calls_runSingle_settle j o : keeps_calls (runSingle_settle j o).
Proof.
  apply keeps_calls_bind; [apply keeps_calls_apply_writes|].
  intros _. apply keeps_calls_then, keeps_calls_runSingle_then.
Qed.

Lemma keeps_calls_event_loop {St} (step : nat → St → M St) sched st :
  (∀ i st, keeps_calls (step i st)) → keeps_calls (event_loop step sched st).
Proof.
  intros Hstep. revert st. induction sched as [|i sched IH]; intros st; [done|].
  cbn [event_loop]. apply keeps_calls_bind; [apply Hstep|apply IH].
Qed.

Lemma keeps_calls_paths_done o j1 j2 i st : keeps_calls (paths_done o j1 j2 i st).
Proof.
  destruct i as [|[|i]]; cbn [paths_done]; [| |done].
  - apply keeps_calls_bind; [apply keeps_calls_runSingle_settle|].
    intros. apply keeps_calls_report.
  - apply keeps_calls_bind; [apply keeps_calls_runSingle_settle|].
    intros. apply keeps_calls_unobserved.
Qed.

(** *** Both calls fulfil and the callback does not end the process *)

Lemma paths_loop_quiet o j fl sched s :
  outcome j = Fulfilled fl →
  truthy o = true ∨ (length fl ≤ 1)%nat →
  sched = [0; 1]%nat ∨ sched = [1; 0]%nat →
  event_loop (paths_done o j j) sched tt s =
  Ret tt {| stdout := (stdout s ++ to_stdout o fl) ++ to_stdout o fl;
            stderr := stderr s;
            fs := put_all (writes j) (put_all (writes j) (fs s));
            spinning := false; calls := calls s;
            unhandled := unhandled s ++ [length_of_undefined] |}.
Proof.
  intros Hj Hq [->| ->]; cbn [event_loop paths_done]; unfold bind.
  - rewrite (runSingle_settle_quiet _ _ _ _ Hj Hq), report_undefined.
    rewrite (runSingle_settle_quiet _ _ _ _ Hj Hq). reflexivity.
  - rewrite (runSingle_settle_quiet _ _ _ _ Hj Hq). cbn [unobserved].
    rewrite (runSingle_settle_quiet _ _ _ _ Hj Hq), report_undefined.
    reflexivity.
Qed.

(** *** The call rejects: both promises carry the error *)

Lemma paths_loop_rejected o j e sched s :
  outcome j = Rejected e →
  sched = [0; 1]%nat ∨ sched = [1; 0]%nat →
  event_loop (paths_done o j j) sched tt s =
  Ret tt {| stdout := stdout s; stderr := stderr s;
            fs := put_all (writes j) (put_all (writes j) (fs s));
            spinning := false; calls := calls s;
            unhandled := unhandled s ++ [e; e] |}.
Proof.
  intros Hj [->| ->]; cbn [event_loop paths_done]; unfold bind.
  - rewrite (runSingle_settle_rejected _ _ _ _ Hj), report_rejected.
    rewrite (runSingle_settle_rejected _ _ _ _ Hj). cbn.
    by rewrite <- app_assoc.
  - rewrite (runSingle_settle_rejected _ _ _ _ Hj). cbn [unobserved on_disk].
    rewrite (runSingle_settle_rejected _ _ _ _ Hj), report_rejected. cbn.
    by rewrite <- app_assoc.
Qed.

(** *** Several files bound for standard output: the guard of lines 112-115 *)

Lemma paths_loop_many o j fl sched s :
  outcome j = Fulfilled fl → truthy o = false → (2 ≤ length fl)%nat →
  sched = [0; 1]%nat ∨ sched = [1; 0]%nat →
  event_loop (paths_done o j j) sched tt s =
  Exit 1 {| stdout := stdout s; stderr := stderr s ++ [multiple_files_message];
            fs := put_all (writes j) (fs s); spinning := spinning s;
            calls := calls s; unhandled := unhandled s |}.
Proof.
  intros Hj Ho Hlen [->| ->]; cbn [event_loop paths_done]; unfold bind;
    by rewrite (runSingle_settle_many _ _ _ _ Hj Ho Hlen).
Qed.

(** *** What the call of [imagemin] settles to *)

Lemma imagemin_valid env files input o use :
  (∀ x, x ∈ glob env input →
        ∃ raw buf, files !! file_key env x = Some raw ∧ pPipe use raw = Transformed buf) →
  ∃ fl, outcome (imagemin env files input o use) = Fulfilled fl
        ∧ length fl = length (glob env input).
Proof.
  unfold imagemin. cbn [outcome].
  induction (glob env input) as [|x paths IH]; intros Hok.
  - by exists [].
  - destruct (Hok x) as (raw & buf & Hraw & Hbuf); [by apply elem_of_cons; left|].
    destruct IH as (fl & Hfl & Hlen).
    { intros y Hy. apply Hok. by apply elem_of_cons; right. }
    cbn [fmap list_fmap] in *. unfold handleFile at 1. rewrite Hraw, Hbuf.
    destruct (truthy o); cbn [fst all_settled]; rewrite Hfl;
      eexists; (split; [reflexivity|]); cbn [length]; by rewrite Hlen.
Qed.



Lemma imagemin_single env files input o use x raw buf :
  glob env input = [x] →
  files !! file_key env x = Some raw →
  pPipe use raw = Transformed buf →
  truthy o = false →
  imagemin env files input o use
  = {| outcome := Fulfilled [ {| data := buf; path := None |} ]; writes := [] |}.
Proof.
  intros Hglob Hraw Hbuf Ho. unfold imagemin. rewrite Hglob.
  cbn [fmap list_fmap]. unfold handleFile. by rewrite Hraw, Hbuf, Ho.
Qed.

(** ** Path list without [--write] *)

(** C2.  With a path list and [--write] off, [imagemin] is called twice
    with the same input, destination and plugins, whatever happens next.  When
    no output directory is set and the call resolves to a single file, the
    bytes of that file are on standard output twice, in whichever order the
    two calls complete; for a single match these are the bytes the chain makes
    of the file. *)
Theorem runSingle_invoked_twice env input opts sched s hs :
  write opts = false →
  resolves_to env (arrify (plugin (assign_defaults opts))) hs →
  calls (final_state (run env (Paths input) opts sched s))
  = calls s ++ [ {| call_input := input; call_output := outDir opts; call_use := hs |};
                 {| call_input := input; call_output := outDir opts; call_use := hs |} ]
  ∧ (∀ f,
      sched ≡ₚ [0; 1]%nat →
      truthy (outDir opts) = false →
      outcome (imagemin env (fs s) input (outDir opts) hs) = Fulfilled [f] →
      stdout (final_state (run env (Paths input) opts sched s))
      = stdout s ++ data f ++ data f)
  ∧ (∀ x raw buf,
      sched ≡ₚ [0; 1]%nat →
      truthy (outDir opts) = false →
      glob env input = [x] →
      fs s !! file_key env x = Some raw →
      pPipe hs raw = Transformed buf →
      stdout (final_state (run env (Paths input) opts sched s))
      = stdout s ++ buf ++ buf).
Proof.
  intros Hw Hres. rewrite (run_paths_spec _ _ _ _ _ _ Hres Hw).
  assert (Hboth : ∀ f, sched ≡ₚ [0; 1]%nat → truthy (outDir opts) = false →
            outcome (imagemin env (fs s) input (outDir opts) hs) = Fulfilled [f] →
            stdout (final_state
              (event_loop
                 (paths_done (outDir opts)
                    (imagemin env (fs s) input (outDir opts) hs)
                    (imagemin env (fs s) input (outDir opts) hs)) sched tt
                 {| stdout := stdout s; stderr := stderr s; fs := fs s;
                    spinning := if truthy (outDir opts) then true else spinning s;
                    calls := calls s ++
                      [ {| call_input := input; call_output := outDir opts;
                           call_use := hs |};
                        {| call_input := input; call_output := outDir opts;
                           call_use := hs |} ];
                    unhandled := unhandled s |}))
            = stdout s ++ data f ++ data f).
  { intros f Hperm Ho Hj. apply two_orders in Hperm.
    rewrite (paths_loop_quiet _ _ _ _ _ Hj (or_intror (le_n 1)) Hperm).
    unfold to_stdout. rewrite Ho. cbn [final_state stdout].
    by rewrite <- app_assoc. }
  split; [|split].
  - rewrite keeps_calls_event_loop; [done|]. intros. apply keeps_calls_paths_done.
  - exact Hboth.
  - intros x raw buf Hperm Ho Hglob Hraw Hbuf.
    apply (Hboth {| data := buf; path := None |} Hperm Ho).
    by rewrite (imagemin_single _ _ _ _ _ _ _ _ Hglob Hraw Hbuf Ho).
Qed.

Lemma runSingle_invoked_twice_witness :
  length (calls (final_state
           (run sample_env (Paths ["d.png"])
              (with_plugin "flip" None false) [0; 1]%nat (fresh sample_disk)))) = 2%nat
  ∧ stdout (final_state
              (run sample_env (Paths ["d.png"])
                 (with_plugin "flip" None false) [0; 1]%nat (fresh sample_disk)))
    = [x08; x07; x08; x07].
Proof.
  destruct (runSingle_invoked_twice sample_env ["d.png"]
              (with_plugin "flip" None false) [0; 1]%nat (fresh sample_disk) [flip])
    as (Hcalls & Hout & _).
  - reflexivity.
  - repeat constructor.
  - split; [by rewrite Hcalls|].
    apply (Hout {| data := [x08; x07]; path := None |}).
    + reflexivity.
    + reflexivity.
    + reflexivity.
Defined.

(** C4.  Two or more valid input files and no output directory: the first
    call to complete finds several files bound for standard output, prints the
    diagnostic on standard error and ends the process with status 1; standard
    output stays empty. *)
Theorem multiple_files_to_stdout env input opts sched files hs :
  write opts = false →
  truthy (outDir opts) = false →
  resolves_to env (arrify (plugin (assign_defaults opts))) hs →
  (2 ≤ length (glob env input))%nat →
  (∀ x, x ∈ glob env input →
        ∃ raw buf, files !! file_key env x = Some raw
                   ∧ pPipe hs raw = Transformed buf) →
  sched ≡ₚ [0; 1]%nat →
  exit_status (exec (run env (Paths input) opts sched) files) = 1%Z
  ∧ stderr (final_state (exec (run env (Paths input) opts sched) files))
    = [multiple_files_message]
  ∧ stdout (final_state (exec (run env (Paths input) opts sched) files)) = [].
Proof.
  intros Hw Ho Hres Hlen Hok Hperm. unfold exec.
  rewrite (run_paths_spec _ _ _ _ _ _ Hres Hw).
  destruct (imagemin_valid env (fs (fresh files)) input (outDir opts) hs Hok)
    as (fl & Hfl & Hfl_len).
  rewrite <- Hfl_len in Hlen.
  apply two_orders in Hperm.
  by rewrite (paths_loop_many _ _ _ _ _ Hfl Ho Hlen Hperm).
Qed.

Lemma multiple_files_to_stdout_witness :
  exit_status (exec (run sample_env (Paths ["a/*.png"])
                       (with_plugin "flip" None false) [1; 0]%nat) sample_disk) = 1%Z
  ∧ stderr (final_state (exec (run sample_env (Paths ["a/*.png"])
                                 (with_plugin "flip" None false) [1; 0]%nat) sample_disk))
    = [multiple_files_message]
  ∧ stdout (final_state (exec (run sample_env (Paths ["a/*.png"])
                                 (with_plugin "flip" None false) [1; 0]%nat) sample_disk))
    = [].
Proof.
  apply (multiple_files_to_stdout sample_env ["a/*.png"]
           (with_plugin "flip" None false) [1; 0]%nat sample_disk [flip]).
  - reflexivity.
  - reflexivity.
  - repeat constructor.
  - cbn. lia.
  - intros x Hx. change (x ∈ ["a/b.png"; "a/c.png"]) in Hx.
    apply elem_of_cons in Hx as [->|Hx]; [by eexists _, _|].
    apply list_elem_of_singleton in Hx as ->. by eexists _, _.
  - apply Permutation_swap.
Defined.

(** C5, as the code has it.  With a path list and [--write] off, the
    promise of [runSingle] never resolves to anything but [undefined], and it
    does resolve when the plugins load, the call of [imagemin] fulfils and the
    callback does not end the process (an output directory is set, or at most
    one file is bound for standard output).  The summary handler then throws
    the [TypeError] of reading [.length] of [undefined] before it prints
    anything, the catch handler throws it again, and it is left as the one
    unhandled rejection: standard output holds file bytes only and the process
    ends with status 1. *)
Theorem summary_chain_throws env input opts sched s hs fl :
  write opts = false →
  resolves_to env (arrify (plugin (assign_defaults opts))) hs →
  sched ≡ₚ [0; 1]%nat →
  outcome (imagemin env (fs s) input (outDir opts) hs) = Fulfilled fl →
  truthy (outDir opts) = true ∨ (length fl ≤ 1)%nat →
  (∀ j s1 v s2, runSingle_settle j (outDir opts) s1 = Ret (Fulfilled v) s2 →
                v = VUndefined)
  ∧ (∀ s1, ∃ s2, runSingle_settle (imagemin env (fs s) input (outDir opts) hs)
                   (outDir opts) s1 = Ret (Fulfilled VUndefined) s2)
  ∧ (∀ s1, ∃ s2, summarise VUndefined s1 = Thrown length_of_undefined s2
                 ∧ stdout s2 = stdout s1)
  ∧ (∀ e s1, ∃ s2, rethrow e s1 = Thrown e s2)
  ∧ unhandled (final_state (run env (Paths input) opts sched s))
    = unhandled s ++ [length_of_undefined]
  ∧ stdout (final_state (run env (Paths input) opts sched s))
    = stdout s ++ to_stdout (outDir opts) fl ++ to_stdout (outDir opts) fl
  ∧ stderr (final_state (run env (Paths input) opts sched s)) = stderr s
  ∧ exit_status (run env (Paths input) opts sched s) = 1%Z.
Proof.
  intros Hw Hres Hperm Hj Hq.
  split. { intros j s1 v s2. apply runSingle_settle_returns. }
  split. { intros s1. eexists. by apply runSingle_settle_quiet. }
  split. { intros s1. by eexists. }
  split. { intros e s1. by eexists. }
  rewrite (run_paths_spec _ _ _ _ _ _ Hres Hw).
  apply two_orders in Hperm.
  rewrite (paths_loop_quiet _ _ _ _ _ Hj Hq Hperm).
  cbn [final_state exit_status unhandled stdout stderr].
  rewrite <- app_assoc, status_with_rejection. auto.
Qed.

Lemma summary_chain_throws_witness :
  unhandled (final_state
               (run sample_env (Paths ["a/*.png"; "d.png"])
                  (with_plugin "flip" (Some "build") false) [1; 0]%nat
                  (fresh sample_disk)))
  = [length_of_undefined]
  ∧ stdout (final_state
              (run sample_env (Paths ["a/*.png"; "d.png"])
                 (with_plugin "flip" (Some "build") false) [1; 0]%nat
                 (fresh sample_disk)))
    = []
  ∧ exit_status (run sample_env (Paths ["a/*.png"; "d.png"])
                   (with_plugin "flip" (Some "build") false) [1; 0]%nat
                   (fresh sample_disk))
    = 1%Z.
Proof.
  destruct (summary_chain_throws sample_env ["a/*.png"; "d.png"]
              (with_plugin "flip" (Some "build") false) [1; 0]%nat (fresh sample_disk)
              [flip]
              [ {| data := [x03; x02; x01]; path := Some "build/b.png" |};
                {| data := [x05; x00]; path := Some "build/c.png" |};
                {| data := [x08; x07]; path := Some "build/d.png" |} ])
    as (_ & _ & _ & _ & Hun & Hout & _ & Hstatus).
  - reflexivity.
  - repeat constructor.
  - apply Permutation_swap.
  - reflexivity.
  - by left.
  - split; [exact Hun|]. split; [exact Hout|exact Hstatus].
Defined.

(** C5, as stated, fails: not every such invocation reaches the
    [TypeError].  With two files bound for standard output the callback ends
    the process at the guard of lines 112-115 and no rejection is left at all;
    with a file the chain fails on, the promise of [runSingle] rejects instead
    of resolving to [undefined], and what is left unhandled is the failure of
    the plugin, once for each of the two calls. *)
Lemma summary_chain_not_reached :
  sample_glob ["a/*.png"] = ["a/b.png"; "a/c.png"]
  ∧ exec (run sample_env (Paths ["a/*.png"]) (with_plugin "flip" None false) [0; 1]%nat)
      sample_disk
    = Exit 1 {| stdout := []; stderr := [multiple_files_message]; fs := sample_disk;
                spinning := false;
                calls := [ {| call_input := ["a/*.png"]; call_output := None;
                              call_use := [flip] |};
                           {| call_input := ["a/*.png"]; call_output := None;
                              call_use := [flip] |} ];
                unhandled := [] |}
  ∧ pPipe [picky] [x00; x05] = Failed "unsupported header"
  ∧ outcome (imagemin sample_env sample_disk ["a/c.png"] None [picky])
    = Rejected (PluginFailure "a/c.png" "unsupported header")
  ∧ unhandled (final_state
                 (exec (run sample_env (Paths ["a/c.png"])
                          (with_plugin "picky" None false) [0; 1]%nat) sample_disk))
    = [ PluginFailure "a/c.png" "unsupported header";
        PluginFailure "a/c.png" "unsupported header" ]
  ∧ stdout (final_state
              (exec (run sample_env (Paths ["a/c.png"])
                       (with_plugin "picky" None false) [0; 1]%nat) sample_disk))
    = [].
Proof. vm_compute. repeat split. Qed.

(** ** One file to standard output *)

(** C1, at a failing input.  One readable file and no output directory:
    the chain turns the bytes [07 08] of [d.png] into [08 07], and standard
    output receives these bytes twice, in whichever order the two calls of
    [imagemin] complete; the process ends with status 1. *)
Theorem single_file_stdout_doubled :
  sample_glob ["d.png"] = ["d.png"]
  ∧ sample_disk !! file_key sample_env "d.png" = Some [x07; x08]
  ∧ pPipe [flip] [x07; x08] = Transformed [x08; x07]
  ∧ stdout (final_state
              (exec (run sample_env (Paths ["d.png"])
                       (with_plugin "flip" None false) [0; 1]%nat) sample_disk))
    = [x08; x07; x08; x07]
  ∧ stdout (final_state
              (exec (run sample_env (Paths ["d.png"])
                       (with_plugin "flip" None false) [1; 0]%nat) sample_disk))
    = [x08; x07; x08; x07]
  ∧ exit_status
      (exec (run sample_env (Paths ["d.png"])
               (with_plugin "flip" None false) [0; 1]%nat) sample_disk)
    = 1%Z
  ∧ exit_status
      (exec (run sample_env (Paths ["d.png"])
               (with_plugin "flip" None false) [1; 0]%nat) sample_disk)
    = 1%Z.
Proof. vm_compute. repeat split. Qed.

(** ** A pattern that matches nothing *)

(** C6, at a failing input.  A pattern without matches and [--write] off:
    nothing is printed on standard output, the summary chain ends in the
    [TypeError] of reading [.length] of [undefined], and the process ends with
    status 1. *)
Theorem no_match_no_summary :
  sample_glob ["missing/*.png"] = []
  ∧ stdout (final_state
              (exec (run sample_env (Paths ["missing/*.png"])
                       (with_plugin "flip" (Some "build") false) [0; 1]%nat)
                 sample_disk))
    = []
  ∧ unhandled (final_state
                 (exec (run sample_env (Paths ["missing/*.png"])
                          (with_plugin "flip" (Some "build") false) [0; 1]%nat)
                    sample_disk))
    = [length_of_undefined]
  ∧ exit_status
      (exec (run sample_env (Paths ["missing/*.png"])
               (with_plugin "flip" (Some "build") false) [0; 1]%nat) sample_disk)
    = 1%Z.
Proof. vm_compute. repeat split. Qed.

(** ** Write-in-place *)

Lemma dirname_truthy x : truthy (Some (dirname x)) = true.
Proof.
  unfold truthy, dirname.
  destruct (list_ascii_of_string x) as [|c0 rest]; [done|].
  destruct (dirname_scan (rev rest) true) as [[|a r']|];
    destruct (is_slash c0); done.
Qed.

Lemma runSingle_settle_dir j o fl s :
  truthy o = true →
  outcome j = Fulfilled fl →
  runSingle_settle j o s = Ret (Fulfilled VUndefined) (on_disk (put_all (writes j) (fs s)) s).
Proof.
  intros Ho Hj. rewrite (runSingle_settle_quiet _ _ _ _ Hj (or_introl Ho)).
  unfold to_stdout. rewrite Ho, app_nil_r. reflexivity.
Qed.

Lemma dispatch_spec env use paths s :
  dispatch env use paths s =
  Ret (item_jobs env (fs s) use paths)
      {| stdout := stdout s; stderr := stderr s; fs := fs s; spinning := spinning s;
         calls := calls s ++
                  ((fun x => {| call_input := [x]; call_output := Some (dirname x);
                                call_use := use |}) <$> paths);
         unhandled := unhandled s |}.
Proof.
  revert s. induction paths as [|x paths IH]; intros s.
  - cbn. rewrite app_nil_r. by destruct s.
  - cbn [dispatch]. unfold bind. rewrite runSingle_spec, IH.
    cbn [fs calls stdout stderr spinning unhandled fmap list_fmap].
    rewrite <- app_assoc. reflexivity.
Qed.

Lemma item_job_ok env files use x raw buf :
  glob env [x] = [x] →
  files !! file_key env x = Some raw →
  pPipe use raw = Transformed buf →
  item_job env files use x =
  {| outcome := Fulfilled [ {| data := buf;
                               path := Some (destination (dirname x) x) |} ];
     writes := [(file_key env (destination (dirname x) x), buf)] |}.
Proof.
  intros Hglob Hraw Hbuf. unfold item_job, imagemin. rewrite Hglob.
  cbn [fmap list_fmap]. unfold handleFile. rewrite Hraw, Hbuf, dirname_truthy.
  reflexivity.
Qed.

Lemma item_job_failed env files use x raw reason :
  glob env [x] = [x] →
  files !! file_key env x = Some raw →
  pPipe use raw = Failed reason →
  item_job env files use x =
  {| outcome := Rejected (PluginFailure x reason); writes := [] |}.
Proof.
  intros Hglob Hraw Hbuf. unfold item_job, imagemin. rewrite Hglob.
  cbn [fmap list_fmap]. unfold handleFile. rewrite Hraw, Hbuf.
  reflexivity.
Qed.

(** *** One completion, and runs of completions

    [jobs] are the calls write-in-place has in flight. *)

Section Completions.
Context (jobs : list (string * Job)).

Lemma item_done_fulfilled i x j fl st s :
  jobs !! i = Some (x, j) →
  outcome j = Fulfilled fl →
  item_done jobs i st s =
  if (pred (remaining st) =? 0)%nat && negb (settled st) then
    match report (Fulfilled (VArray (<[i := VUndefined]> (values st))))
            (on_disk (put_all (job_writes jobs i) (fs s)) s) with
    | Ret _ s' =>
        Ret {| remaining := pred (remaining st);
               values := <[i := VUndefined]> (values st);
               settled := true |} s'
    | Thrown e s' => Thrown e s'
    | Exit c s' => Exit c s'
    end
  else
    Ret {| remaining := pred (remaining st);
           values := <[i := VUndefined]> (values st);
           settled := settled st |}
        (on_disk (put_all (job_writes jobs i) (fs s)) s).
Proof.
  intros Hi Hj. unfold item_done, job_writes. rewrite Hi.
  unfold bind at 1. rewrite (runSingle_settle_dir _ _ _ _ (dirname_truthy x) Hj).
  cbn [remaining settled values].
  destruct ((pred (remaining st) =? 0)%nat && negb (settled st)); [|done].
  unfold bind, then_, normalise, ret, settle.
  by destruct (report _ _).
Qed.

Lemma item_done_rejected i x j e st s :
  jobs !! i = Some (x, j) →
  outcome j = Rejected e →
  item_done jobs i st s =
  if settled st then Ret st (on_disk (put_all (job_writes jobs i) (fs s)) s)
  else
    match report (Rejected e) (on_disk (put_all (job_writes jobs i) (fs s)) s) with
    | Ret _ s' => Ret (settle st) s'
    | Thrown e' s' => Thrown e' s'
    | Exit c s' => Exit c s'
    end.
Proof.
  intros Hi Hj. unfold item_done, job_writes. rewrite Hi.
  unfold bind at 1. rewrite (runSingle_settle_rejected _ _ _ _ Hj).
  destruct (settled st); [done|].
  unfold bind, then_, ret.
  by destruct (report _ _).
Qed.

Lemma fs_after_app l1 l2 m :
  fs_after jobs (l1 ++ l2) m = fs_after jobs l2 (fs_after jobs l1 m).
Proof. unfold fs_after. by rewrite foldl_app. Qed.

(** While [Promise.all] still waits for more promises than complete, each
    fulfilment only moves files. *)
Lemma loop_pending pre st s :
  settled st = false →
  (length pre < remaining st)%nat →
  (∀ i, i ∈ pre → ∃ x j fl, jobs !! i = Some (x, j) ∧ outcome j = Fulfilled fl) →
  ∃ st',
    event_loop (item_done jobs) pre st s
    = Ret st' (on_disk (fs_after jobs pre (fs s)) s)
    ∧ remaining st' = (remaining st - length pre)%nat
    ∧ settled st' = false
    ∧ length (values st') = length (values st).
Proof.
  revert st s. induction pre as [|i pre IH]; intros st s Hopen Hlen Hok.
  - exists st. cbn. rewrite Nat.sub_0_r. by destruct s.
  - destruct (Hok i) as (x & j & fl & Hi & Hj); [by apply elem_of_cons; left|].
    cbn [length] in Hlen.
    cbn [event_loop]. unfold bind.
    rewrite (item_done_fulfilled _ _ _ _ _ _ Hi Hj).
    destruct (Nat.eqb_spec (pred (remaining st)) 0) as [Hz|_]; [lia|].
    cbn [andb].
    edestruct (IH {| remaining := pred (remaining st);
                     values := <[i := VUndefined]> (values st);
                     settled := settled st |}
                 (on_disk (put_all (job_writes jobs i) (fs s)) s))
      as (st' & Hrun & Hrem & Hset & Hvals).
    + done.
    + cbn [remaining]. lia.
    + intros i' Hi'. apply Hok. by apply elem_of_cons; right.
    + exists st'. split; [exact Hrun|]. cbn [remaining values] in *.
      rewrite length_insert in Hvals. repeat split; [|done..]. cbn [length]. lia.
Qed.

(** Once [Promise.all] has settled, later completions only move files. *)
Lemma loop_settled post st s :
  settled st = true →
  ∃ st',
    event_loop (item_done jobs) post st s
    = Ret st' (on_disk (fs_after jobs post (fs s)) s)
    ∧ settled st' = true.
Proof.
  revert st s. induction post as [|i post IH]; intros st s Hset.
  - exists st. cbn. by destruct s.
  - cbn [event_loop]. unfold bind.
    assert (∃ st1, item_done jobs i st s
                   = Ret st1 (on_disk (put_all (job_writes jobs i) (fs s)) s)
                   ∧ settled st1 = true) as (st1 & Hstep & Hset1).
    { destruct (jobs !! i) as [[x j]|] eqn:Hi.
      - destruct (outcome j) as [fl|e] eqn:Hj.
        + rewrite (item_done_fulfilled _ _ _ _ _ _ Hi Hj), Hset, andb_false_r.
          by eexists.
        + rewrite (item_done_rejected _ _ _ _ _ _ Hi Hj), Hset. by eexists.
      - exists st. unfold item_done, job_writes. rewrite Hi. cbn. by destruct s. }
    rewrite Hstep.
    destruct (IH st1 (on_disk (put_all (job_writes jobs i) (fs s)) s) Hset1)
      as (st' & Hrun & Hset').
    exists st'. by split.
Qed.

(** A schedule over jobs of which one rejects splits at the first completion
    that is a rejection. *)
Lemma first_rejection sched :
  (∀ i, i ∈ sched → ∃ x j, jobs !! i = Some (x, j)) →
  (∃ i x j e, i ∈ sched ∧ jobs !! i = Some (x, j) ∧ outcome j = Rejected e) →
  ∃ pre k post x j e,
    sched = pre ++ k :: post
    ∧ jobs !! k = Some (x, j) ∧ outcome j = Rejected e
    ∧ ∀ i, i ∈ pre → ∃ x j fl, jobs !! i = Some (x, j) ∧ outcome j = Fulfilled fl.
Proof.
  induction sched as [|i0 sched IH]; intros Hjobs (i & x & j & e & Hi & Hij & He).
  - by apply elem_of_nil in Hi.
  - destruct (Hjobs i0) as (x0 & j0 & Hi0); [by apply elem_of_cons; left|].
    destruct (outcome j0) as [fl0|e0] eqn:Hj0.
    + destruct IH as (pre & k & post & xk & jk & ek & -> & Hk & Hek & Hpre).
      { intros i' Hi'. apply Hjobs. by apply elem_of_cons; right. }
      { apply elem_of_cons in Hi as [->|Hi]; [congruence|].
        by exists i, x, j, e. }
      exists (i0 :: pre), k, post, xk, jk, ek. repeat split; [done..|].
      intros i' Hi'. apply elem_of_cons in Hi' as [->|Hi']; [|by apply Hpre].
      by exists x0, j0, fl0.
    + exists [], i0, sched, x0, j0, e0. repeat split; [done..|].
      intros i' Hi'. by apply elem_of_nil in Hi'.
Qed.

(** The first rejection settles [Promise.all]: the summary chain rethrows
    the error, and the completions that follow still run. *)
Lemma loop_rejects pre k post x j e st s :
  jobs !! k = Some (x, j) →
  outcome j = Rejected e →
  settled st = false →
  (length pre < remaining st)%nat →
  (∀ i, i ∈ pre → ∃ x j fl, jobs !! i = Some (x, j) ∧ outcome j = Fulfilled fl) →
  ∃ st',
    event_loop (item_done jobs) (pre ++ k :: post) st s
    = Ret st' {| stdout := stdout s; stderr := stderr s;
                 fs := fs_after jobs (pre ++ k :: post) (fs s);
                 spinning := false; calls := calls s;
                 unhandled := unhandled s ++ [e] |}.
Proof.
  intros Hk He Hopen Hlen Hpre.
  destruct (loop_pending pre st s Hopen Hlen Hpre) as (st1 & Hrun & _ & Hset & _).
  rewrite event_loop_app, Hrun. cbn [event_loop]. unfold bind at 1.
  rewrite (item_done_rejected _ _ _ _ _ _ Hk He), Hset, report_rejected.
  match goal with
  | |- context [event_loop _ post ?st2 ?s2] =>
      destruct (loop_settled post st2 s2) as (st' & Hpost & _); [done|]
  end.
  exists st'. rewrite Hpost. unfold on_disk. cbn [stdout stderr fs spinning calls unhandled].
  by rewrite fs_after_app.
Qed.

(** When every call fulfils, the last completion resolves [Promise.all] and
    the summary counts the values collected. *)
Lemma loop_fulfils pre k st s :
  settled st = false →
  remaining st = S (length pre) →
  (∀ i, i ∈ pre ++ [k] →
        ∃ x j fl, jobs !! i = Some (x, j) ∧ outcome j = Fulfilled fl) →
  ∃ st',
    event_loop (item_done jobs) (pre ++ [k]) st s
    = Ret st' {| stdout := stdout s
                           ++ utf8 (summary_line (length (values st)) +:+ nl);
                 stderr := stderr s;
                 fs := fs_after jobs (pre ++ [k]) (fs s);
                 spinning := false; calls := calls s;
                 unhandled := unhandled s |}.
Proof.
  intros Hopen Hrem Hok.
  destruct (loop_pending pre st s Hopen) as (st1 & Hrun & Hrem1 & Hset & Hvals).
  { lia. }
  { intros i Hi. apply Hok, elem_of_app. by left. }
  destruct (Hok k) as (x & j & fl & Hk & Hj).
  { apply elem_of_app. right. by apply list_elem_of_singleton. }
  rewrite event_loop_app, Hrun. cbn [event_loop]. unfold bind at 1.
  rewrite (item_done_fulfilled _ _ _ _ _ _ Hk Hj), Hrem1, Hset, Hrem.
  replace (pred (S (length pre) - length pre)) with 0%nat by lia.
  cbn [Nat.eqb andb negb]. rewrite report_array.
  eexists. unfold ret, on_disk. cbn [stdout stderr fs spinning calls unhandled].
  by rewrite length_insert, Hvals, fs_after_app.
Qed.

End Completions.

(** *** What is on disk afterwards *)

Lemma put_all_lookup ws (m : gmap string bytes) p b :
  (∀ p' b', (p', b') ∈ ws → p' = p → b' = b) →
  (∃ b', (p, b') ∈ ws) ∨ m !! p = Some b →
  put_all ws m !! p = Some b.
Proof.
  revert m. induction ws as [|[p0 b0] ws IH]; intros m Hsame Hin.
  - destruct Hin as [(b' & Hb')|Hm]; [by apply elem_of_nil in Hb'|done].
  - change (put_all ws (<[p0 := b0]> m) !! p = Some b).
    assert (Hsame' : ∀ p' b', (p', b') ∈ ws → p' = p → b' = b).
    { intros p' b' Hin'. apply Hsame. by apply elem_of_cons; right. }
    apply IH; [done|].
    destruct (decide (p0 = p)) as [->|Hne].
    + right. rewrite (Hsame p b0); [apply lookup_insert_eq| |done].
      by apply elem_of_cons; left.
    + destruct Hin as [(b' & Hb')|Hm].
      * left. exists b'. apply elem_of_cons in Hb' as [[= <- <-]|Hb']; [done|done].
      * right. by rewrite lookup_insert_ne.
Qed.

Lemma put_all_other ws (m : gmap string bytes) y :
  (∀ p b, (p, b) ∈ ws → p ≠ y) →
  put_all ws m !! y = m !! y.
Proof.
  revert m. induction ws as [|[p0 b0] ws IH]; intros m Hne; [done|].
  change (put_all ws (<[p0 := b0]> m) !! y = m !! y).
  rewrite IH.
  - apply lookup_insert_ne. apply (Hne p0 b0). by apply elem_of_cons; left.
  - intros p b Hin. apply (Hne p b). by apply elem_of_cons; right.
Qed.

Lemma fs_after_lookup jobs sched (m : gmap string bytes) p b :
  (∀ i p' b', i ∈ sched → (p', b') ∈ job_writes jobs i → p' = p → b' = b) →
  (∃ i b', i ∈ sched ∧ (p, b') ∈ job_writes jobs i) ∨ m !! p = Some b →
  fs_after jobs sched m !! p = Some b.
Proof.
  revert m. induction sched as [|i sched IH]; intros m Hsame Hin.
  - destruct Hin as [(i & b' & Hi & _)|Hm]; [by apply elem_of_nil in Hi|done].
  - change (fs_after jobs sched (put_all (job_writes jobs i) m) !! p = Some b).
    apply IH.
    { intros i' p' b' Hi'. apply (Hsame i'). by apply elem_of_cons; right. }
    destruct Hin as [(i' & b' & Hi' & Hw)|Hm].
    + apply elem_of_cons in Hi' as [->|Hi'].
      * right. apply put_all_lookup; [|by left; exists b'].
        intros p' b''. apply (Hsame i). by apply elem_of_cons; left.
      * left. by exists i', b'.
    + right. apply put_all_lookup; [|by right].
      intros p' b''. apply (Hsame i). by apply elem_of_cons; left.
Qed.

Lemma fs_after_other jobs sched (m : gmap string bytes) y :
  (∀ i p b, i ∈ sched → (p, b) ∈ job_writes jobs i → p ≠ y) →
  fs_after jobs sched m !! y = m !! y.
Proof.
  revert m. induction sched as [|i sched IH]; intros m Hne; [done|].
  change (fs_after jobs sched (put_all (job_writes jobs i) m) !! y = m !! y).
  rewrite IH.
  - apply put_all_other. intros p b. apply (Hne i). by apply elem_of_cons; left.
  - intros i' p b Hi'. apply (Hne i'). by apply elem_of_cons; right.
Qed.

Lemma item_jobs_lookup env files use paths i x :
  paths !! i = Some x →
  item_jobs env files use paths !! i = Some (x, item_job env files use x).
Proof. intros H. unfold item_jobs. by rewrite list_lookup_fmap, H. Qed.

Lemma item_jobs_length env files use paths :
  length (item_jobs env files use paths) = length paths.
Proof. unfold item_jobs. apply length_fmap. Qed.

Lemma schedule_indices (sched : list nat) n i :
  sched ≡ₚ seq 0 n → i ∈ sched → (i < n)%nat.
Proof.
  intros Hperm Hi. rewrite Hperm in Hi. apply elem_of_seq in Hi. lia.
Qed.

Lemma schedule_jobs env files use paths sched i :
  sched ≡ₚ seq 0 (length paths) → i ∈ sched →
  ∃ x, paths !! i = Some x
       ∧ item_jobs env files use paths !! i = Some (x, item_job env files use x).
Proof.
  intros Hperm Hi. apply (schedule_indices _ _ _ Hperm) in Hi.
  destruct (lookup_lt_is_Some_2 paths i Hi) as [x Hx].
  exists x. split; [done|by apply item_jobs_lookup].
Qed.

(** Write-in-place: the spinner starts, every match is dispatched, and the
    event loop starts with all of them pending. *)
Lemma run_write_spec env input opts sched s hs :
  resolves_to env (arrify (plugin (assign_defaults opts))) hs →
  write opts = true →
  run env (Paths input) opts sched s =
  (if (length (glob env input) =? 0)%nat then
     report (Fulfilled (VArray []))
   else
     event_loop (item_done (item_jobs env (fs s) hs (glob env input))) sched
       {| remaining := length (glob env input);
          values := replicate (length (glob env input)) VUndefined;
          settled := false |};;
     ret tt)
    {| stdout := stdout s; stderr := stderr s; fs := fs s; spinning := true;
       calls := calls s ++
                ((fun x => {| call_input := [x]; call_output := Some (dirname x);
                              call_use := hs |}) <$> glob env input);
       unhandled := unhandled s |}.
Proof.
  intros Hres Hw. rewrite (run_resolved _ _ _ _ _ _ Hres). rewrite Hw.
  rewrite orb_true_r. cbn [negb]. unfold bind at 1 2.
  cbn [set_spinner]. rewrite dispatch_spec. cbn [fs].
  rewrite item_jobs_length.
  by destruct (length (glob env input) =? 0)%nat.
Qed.

(** Write-in-place when every call fulfils: the summary counts the matches
    and nothing is left unhandled. *)
Lemma run_write_fulfils env input opts sched s hs :
  resolves_to env (arrify (plugin (assign_defaults opts))) hs →
  write opts = true →
  sched ≡ₚ seq 0 (length (glob env input)) →
  (∀ x, x ∈ glob env input →
        ∃ fl, outcome (item_job env (fs s) hs x) = Fulfilled fl) →
  run env (Paths input) opts sched s =
  Ret tt {| stdout := stdout s
                      ++ utf8 (summary_line (length (glob env input)) +:+ nl);
            stderr := stderr s;
            fs := fs_after (item_jobs env (fs s) hs (glob env input)) sched (fs s);
            spinning := false;
            calls := calls s ++
                     ((fun x => {| call_input := [x]; call_output := Some (dirname x);
                                   call_use := hs |}) <$> glob env input);
            unhandled := unhandled s |}.
Proof.
  intros Hres Hw Hperm Hok.
  rewrite (run_write_spec _ _ _ _ _ _ Hres Hw).
  set (paths := glob env input) in *.
  assert (Hlen : length sched = length paths) by (by rewrite Hperm, length_seq).
  destruct (Nat.eqb_spec (length paths) 0) as [Hzero|Hpos].
  - rewrite report_array. cbn [length stdout stderr fs calls unhandled].
    rewrite Hzero in Hlen. apply nil_length_inv in Hlen as ->.
    by rewrite Hzero.
  - destruct sched as [|k pre _] using rev_ind; [cbn in Hlen; lia|].
    rewrite length_app in Hlen. cbn [length] in Hlen.
    unfold bind at 1.
    match goal with
    | |- context [event_loop _ _ ?st ?s1] =>
        destruct (loop_fulfils (item_jobs env (fs s) hs paths) pre k st s1)
          as (st' & Hrun)
    end.
    + done.
    + cbn [remaining]. lia.
    + intros i Hi. destruct (schedule_jobs env (fs s) hs paths _ i Hperm Hi)
        as (x & Hx & Hjob).
      destruct (Hok x) as [fl Hfl]; [by eapply list_elem_of_lookup_2|].
      by exists x, (item_job env (fs s) hs x), fl.
    + rewrite Hrun. cbn [values stdout stderr fs calls unhandled].
      by rewrite length_replicate.
Qed.

(** Write-in-place when one call rejects: no summary, the error of the first
    rejection to complete is left unhandled, and every completion has run. *)
Lemma run_write_rejects env input opts sched s hs :
  resolves_to env (arrify (plugin (assign_defaults opts))) hs →
  write opts = true →
  sched ≡ₚ seq 0 (length (glob env input)) →
  (∃ x e, x ∈ glob env input ∧ outcome (item_job env (fs s) hs x) = Rejected e) →
  ∃ x e,
    x ∈ glob env input ∧ outcome (item_job env (fs s) hs x) = Rejected e
    ∧ run env (Paths input) opts sched s =
      Ret tt {| stdout := stdout s; stderr := stderr s;
                fs := fs_after (item_jobs env (fs s) hs (glob env input)) sched (fs s);
                spinning := false;
                calls := calls s ++
                         ((fun x => {| call_input := [x];
                                       call_output := Some (dirname x);
                                       call_use := hs |}) <$> glob env input);
                unhandled := unhandled s ++ [e] |}.
Proof.
  intros Hres Hw Hperm (x & e & Hx & He).
  rewrite (run_write_spec _ _ _ _ _ _ Hres Hw).
  set (paths := glob env input) in *.
  set (jobs := item_jobs env (fs s) hs paths).
  assert (Hlen : length sched = length paths) by (by rewrite Hperm, length_seq).
  destruct (Nat.eqb_spec (length paths) 0) as [Hzero|Hpos].
  { apply nil_length_inv in Hzero. rewrite Hzero in Hx. by apply elem_of_nil in Hx. }
  destruct (first_rejection jobs sched)
    as (pre & k & post & xk & jk & ek & Hsplit & Hk & Hek & Hpre).
  { intros i Hi. destruct (schedule_jobs env (fs s) hs paths _ i Hperm Hi)
      as (x' & _ & Hjob). by eexists _, _. }
  { apply list_elem_of_lookup_1 in Hx as [i Hi].
    exists i, x, (item_job env (fs s) hs x), e. split; [|split; [|done]].
    - rewrite Hperm. apply elem_of_seq. apply lookup_lt_Some in Hi. lia.
    - by apply item_jobs_lookup. }
  assert (Hkx : paths !! k = Some xk ∧ jk = item_job env (fs s) hs xk).
  { destruct (schedule_jobs env (fs s) hs paths sched k Hperm) as (x' & Hx' & Hjob).
    { rewrite Hsplit. apply elem_of_app. right. by apply elem_of_cons; left. }
    fold jobs in Hjob. rewrite Hk in Hjob. injection Hjob as -> ->. by split. }
  destruct Hkx as [Hxk ->].
  exists xk, ek. split; [by eapply list_elem_of_lookup_2|]. split; [done|].
  rewrite Hsplit in Hlen. rewrite length_app in Hlen. cbn [length] in Hlen.
  unfold bind at 1.
  match goal with
  | |- context [event_loop _ _ ?st ?s1] =>
      destruct (loop_rejects jobs pre k post xk _ ek st s1 Hk Hek)
        as (st' & Hrun)
  end.
  - done.
  - cbn [remaining]. lia.
  - exact Hpre.
  - rewrite Hsplit, Hrun. reflexivity.
Qed.

(** ** A plugin failure in a batch *)




(** ** A file whose name is a glob pattern *)

(** C7, at a failing input.  [pics/*] matches the one file
    [pics/[1].png].  Write-in-place hands this path to [imagemin] as a
    pattern, where the brackets stand for the character [1]: nothing matches,
    nothing is transformed, nothing is written.  The call still fulfils, so
    the summary counts one image and the process ends with status 0, while the
    file holds the bytes it had, not those the chain makes of them. *)
Theorem bracket_name_counted_not_rewritten :
  sample_glob ["pics/*"] = ["pics/[1].png"]
  ∧ sample_glob ["pics/[1].png"] = []
  ∧ sample_disk !! file_key sample_env "pics/[1].png" = Some [x0a; x0b]
  ∧ pPipe [flip] [x0a; x0b] = Transformed [x0b; x0a]
  ∧ file_key sample_env (destination (dirname "pics/[1].png") "pics/[1].png")
    = file_key sample_env "pics/[1].png"
  ∧ exec (run sample_env (Paths ["pics/*"]) (with_plugin "flip" None true) [0]%nat)
      sample_disk
    = Ret tt
        {| stdout := utf8 ("1 image minified" +:+ nl); stderr := [];
           fs := sample_disk; spinning := false;
           calls := [ {| call_input := ["pics/[1].png"]; call_output := Some "pics";
                         call_use := [flip] |} ];
           unhandled := [] |}
  ∧ exit_status
      (exec (run sample_env (Paths ["pics/*"]) (with_plugin "flip" None true) [0]%nat)
         sample_disk)
    = 0%Z.
Proof. repeat split. Qed.

(** ** Paths that name the same file *)


Lemma chars_app a b :
  list_ascii_of_string (a +:+ b) = list_ascii_of_string a ++ list_ascii_of_string b.
Proof.
  induction a as [|c a IH]; [done|].
  change (String c a +:+ b) with (String c (a +:+ b)).
  cbn [list_ascii_of_string app]. by rewrite IH.
Qed.

Lemma chars_of_list l : list_ascii_of_string (string_of_list_ascii l) = l.
Proof. apply list_ascii_of_string_of_list_ascii. Qed.

Lemma segments_nonempty cs : ∃ seg rest, segments cs = seg :: rest.
Proof.
  induction cs as [|c cs (seg & rest & IH)]; [by eexists _, _|].
  cbn [segments]. rewrite IH. destruct (is_slash c); by eexists _, _.
Qed.

Lemma segments_app_slash a b :
  segments (a ++ slash :: b) = segments a ++ segments b.
Proof.
  induction a as [|c a IH]; [done|].
  cbn [app segments]. rewrite IH.
  destruct (is_slash c); [done|].
  by destruct (segments_nonempty a) as (seg & rest & ->).
Qed.

Lemma segments_plain l :
  forallb (fun c => negb (is_slash c)) l = true → segments l = [l].
Proof.
  induction l as [|c l IH]; [done|]. cbn [forallb segments].
  intros [Hc Hl]%andb_true_iff. apply negb_true_iff in Hc. by rewrite Hc, IH.
Qed.

Lemma segments_slashes k : segments (replicate k slash) = replicate (S k) [].
Proof. induction k as [|k IH]; [done|]. cbn [replicate segments]. by rewrite IH. Qed.

Lemma segments_trailing l k :
  forallb (fun c => negb (is_slash c)) l = true →
  segments (l ++ replicate k slash) = l :: replicate k [].
Proof.
  intros Hl. destruct k as [|k].
  - rewrite app_nil_r. by apply segments_plain.
  - cbn [replicate]. by rewrite segments_app_slash, segments_plain, segments_slashes.
Qed.

(** Pushing a segment that does not count changes nothing. *)
Lemma push_idle allow stack seg :
  counts seg = false → push_segment allow stack seg = stack.
Proof.
  unfold counts, push_segment. intros H%negb_false_iff. by rewrite H.
Qed.

Lemma fold_push_kept allow l stack :
  fold_left (push_segment allow) (kept l) stack
  = fold_left (push_segment allow) l stack.
Proof.
  unfold kept. revert stack. induction l as [|seg l IH]; intros stack; [done|].
  cbn [fold_left]. destruct (counts seg) eqn:Hseg.
  - rewrite filter_cons_True by done. apply IH.
  - rewrite filter_cons_False by (by rewrite Hseg). by rewrite IH, push_idle.
Qed.


Lemma is_slash_eq c : is_slash c = true → c = slash.
Proof. unfold is_slash. by intros H%Ascii.eqb_eq. Qed.

Lemma plain_cons c l : plain (c :: l) ↔ is_slash c = false ∧ plain l.
Proof. unfold plain. cbn [forallb]. rewrite andb_true_iff, negb_true_iff. tauto. Qed.

Lemma plain_app l1 l2 : plain (l1 ++ l2) ↔ plain l1 ∧ plain l2.
Proof. unfold plain. rewrite forallb_app, andb_true_iff. tauto. Qed.

Lemma plain_rev l : plain l → plain (rev l).
Proof.
  induction l as [|c l IH]; [done|]. intros [Hc Hl]%plain_cons.
  cbn [rev]. apply plain_app. split; [by apply IH|]. by apply plain_cons.
Qed.

(** *** The backwards scans of [dirname] and [basename] *)

Lemma take_segment_plain r : plain (take_segment r).
Proof.
  induction r as [|c r IH]; [done|]. cbn [take_segment].
  destruct (is_slash c) eqn:Hc; [done|]. by apply plain_cons.
Qed.

Lemma take_segment_of_plain seg rest :
  plain seg →
  take_segment (seg ++ rest)
  = seg ++ match rest with
           | [] => []
           | c :: _ => if is_slash c then [] else take_segment rest
           end.
Proof.
  induction seg as [|c seg IH]; intros Hseg.
  - destruct rest as [|c rest]; [done|]. cbn. by destruct (is_slash c).
  - apply plain_cons in Hseg as [Hc Hseg]. cbn [app take_segment].
    by rewrite Hc, IH.
Qed.

Lemma drop_slashes_replicate k rest :
  drop_slashes (replicate k slash ++ rest) = drop_slashes rest.
Proof. induction k as [|k IH]; [done|]. cbn. exact IH. Qed.

Lemma drop_slashes_plain c seg :
  is_slash c = false → drop_slashes (c :: seg) = c :: seg.
Proof. intros Hc. cbn. by rewrite Hc. Qed.

(** Inside the last segment: the scan runs to the slash before it. *)
Lemma scan_in_segment r :
  ∃ seg, plain seg
    ∧ ((r = seg ∧ dirname_scan r false = None)
       ∨ ∃ r3, r = seg ++ slash :: r3 ∧ dirname_scan r false = Some r3).
Proof.
  induction r as [|c r (seg & Hseg & IH)].
  - exists []. split; [done|]. by left.
  - cbn [dirname_scan]. destruct (is_slash c) eqn:Hc.
    + exists []. split; [done|]. right. exists r.
      by rewrite (is_slash_eq _ Hc).
    + exists (c :: seg). split; [by apply plain_cons|].
      destruct IH as [[-> Hscan]|(r3 & -> & Hscan)]; [by left|].
      right. by exists r3.
Qed.

(** From the end of the path: trailing slashes, the last segment, and the
    slash before it, if there is one. *)
Lemma scan_spec r :
  ∃ k seg, plain seg
    ∧ ((r = replicate k slash ++ seg ∧ dirname_scan r true = None)
       ∨ ∃ r3, seg ≠ [] ∧ r = replicate k slash ++ seg ++ slash :: r3
               ∧ dirname_scan r true = Some r3).
Proof.
  induction r as [|c r (k & seg & Hseg & IH)].
  - exists 0%nat, []. split; [done|]. by left.
  - cbn [dirname_scan]. destruct (is_slash c) eqn:Hc.
    + apply is_slash_eq in Hc as ->. exists (S k), seg. split; [done|].
      destruct IH as [[-> Hscan]|(r3 & Hne & -> & Hscan)]; [by left|].
      right. by exists r3.
    + destruct (scan_in_segment r) as (seg' & Hseg' & Hr).
      exists 0%nat, (c :: seg'). split; [by apply plain_cons|].
      destruct Hr as [[-> Hscan]|(r3 & -> & Hscan)]; [by left|].
      right. by exists r3.
Qed.

(** *** What [dirname] and [basename] keep of a path *)

Lemma replicate_snoc {A} k (a : A) : replicate k a ++ [a] = a :: replicate k a.
Proof. induction k as [|k IH]; [done|]. cbn. by rewrite IH. Qed.

Lemma rev_replicate {A} k (a : A) : rev (replicate k a) = replicate k a.
Proof.
  induction k as [|k IH]; [done|]. cbn [replicate rev].
  by rewrite IH, replicate_snoc.
Qed.

Lemma path_segments_of_list cs :
  path_segments (string_of_list_ascii cs) = string_of_list_ascii <$> segments cs.
Proof. unfold path_segments. by rewrite chars_of_list. Qed.

Lemma path_segments_join a b :
  path_segments (a +:+ "/" +:+ b) = path_segments a ++ path_segments b.
Proof.
  unfold path_segments. rewrite chars_app.
  change (list_ascii_of_string ("/" +:+ b)) with (slash :: list_ascii_of_string b).
  by rewrite segments_app_slash, fmap_app.
Qed.

Lemma kept_app l1 l2 : kept (l1 ++ l2) = kept l1 ++ kept l2.
Proof. apply filter_app. Qed.

Lemma kept_empties k : kept (string_of_list_ascii <$> replicate k []) = [].
Proof. induction k as [|k IH]; [done|]. exact IH. Qed.

Lemma kept_trailing l k :
  plain l →
  kept (string_of_list_ascii <$> segments (l ++ replicate k slash))
  = kept [string_of_list_ascii l].
Proof.
  intros Hl. rewrite (segments_trailing _ _ Hl). cbn [fmap list_fmap].
  change (?a :: ?l) with ([a] ++ l). by rewrite kept_app, kept_empties, app_nil_r.
Qed.

Lemma dir_base_chars cs :
  dirname (string_of_list_ascii cs) ≠ ""
  ∧ is_absolute (dirname (string_of_list_ascii cs))
    = is_absolute (string_of_list_ascii cs)
  ∧ plain (list_ascii_of_string (basename (string_of_list_ascii cs)))
  ∧ kept (path_segments (dirname (string_of_list_ascii cs) +:+ "/"
                         +:+ basename (string_of_list_ascii cs)))
    = kept (path_segments (string_of_list_ascii cs)).
Proof.
  rewrite path_segments_join, kept_app, path_segments_of_list.
  unfold dirname, basename, is_absolute. rewrite !chars_of_list.
  destruct cs as [|c0 rest]; [done|].
  destruct (scan_spec (rev rest)) as (k & seg & Hseg & Hscan).
  assert (Hrest : ∀ r, rev rest = r → rest = rev r).
  { intros r <-. by rewrite rev_involutive. }
  cbn [rev].
  destruct Hscan as [[Hr Hscan]|(r3 & Hne & Hr & Hscan)]; rewrite Hscan, Hr.
  - (* no slash before the last segment *)
    apply Hrest in Hr. rewrite rev_app_distr, rev_replicate in Hr. subst rest.
    assert (Hbase : take_segment (drop_slashes ((replicate k slash ++ seg) ++ [c0]))
                    = seg ++ (if is_slash c0 then [] else [c0])).
    { rewrite <- app_assoc, drop_slashes_replicate.
      destruct seg as [|c seg].
      - cbn. destruct (is_slash c0) eqn:Hc0; cbn; by rewrite ?Hc0.
      - apply plain_cons in Hseg as [Hc Hseg].
        change ((c :: seg) ++ [c0]) with (c :: (seg ++ [c0])).
        rewrite (drop_slashes_plain _ _ Hc).
        change (c :: (seg ++ [c0])) with ((c :: seg) ++ [c0]).
        rewrite take_segment_of_plain by (by apply plain_cons).
        destruct (is_slash c0) eqn:Hc0; cbn; by rewrite ?Hc0. }
    rewrite Hbase, rev_app_distr.
    destruct (is_slash c0) eqn:Hc0.
    + apply is_slash_eq in Hc0 as ->. cbn [rev app].
      split; [done|]. split; [done|].
      split; [by apply plain_rev|].
      rewrite path_segments_of_list.
      rewrite (segments_plain (rev seg)) by (by apply plain_rev).
      change (slash :: rev seg ++ replicate k slash)
        with ([] ++ slash :: (rev seg ++ replicate k slash)).
      rewrite segments_app_slash, fmap_app, kept_app.
      by rewrite (kept_trailing _ _ (plain_rev _ Hseg)).
    + cbn [rev app].
      split; [done|]. split; [done|].
      assert (Hplain : plain (c0 :: rev seg)).
      { apply plain_cons. split; [done|by apply plain_rev]. }
      split; [done|].
      rewrite path_segments_of_list.
      rewrite (segments_plain _ Hplain).
      change (c0 :: rev seg ++ replicate k slash)
        with ((c0 :: rev seg) ++ replicate k slash).
      by rewrite (kept_trailing _ _ Hplain).
  - (* the slash before the last segment splits the path *)
    apply Hrest in Hr.
    rewrite !rev_app_distr in Hr. cbn [rev] in Hr.
    rewrite rev_replicate, <- !app_assoc in Hr. cbn [app] in Hr. subst rest.
    assert (Hbase : take_segment
                      (drop_slashes ((replicate k slash ++ seg ++ slash :: r3) ++ [c0]))
                    = seg).
    { rewrite <- app_assoc, drop_slashes_replicate.
      destruct seg as [|c seg]; [done|].
      pose proof Hseg as Hseg'. apply plain_cons in Hseg' as [Hc _].
      rewrite <- app_assoc.
      change ((c :: seg) ++ (slash :: r3) ++ [c0])
        with (c :: (seg ++ (slash :: r3) ++ [c0])).
      rewrite (drop_slashes_plain _ _ Hc).
      change (c :: (seg ++ (slash :: r3) ++ [c0]))
        with ((c :: seg) ++ slash :: (r3 ++ [c0])).
      rewrite take_segment_of_plain by done. cbn. by rewrite app_nil_r. }
    rewrite Hbase.
    assert (Hx : kept (string_of_list_ascii
                         <$> segments (c0 :: rev r3 ++ slash :: rev seg
                                         ++ replicate k slash))
                 = kept (string_of_list_ascii <$> segments (c0 :: rev r3))
                   ++ kept [string_of_list_ascii (rev seg)]).
    { change (c0 :: rev r3 ++ slash :: rev seg ++ replicate k slash)
        with ((c0 :: rev r3) ++ slash :: (rev seg ++ replicate k slash)).
      rewrite segments_app_slash, fmap_app, kept_app.
      by rewrite (kept_trailing _ _ (plain_rev _ Hseg)). }
    rewrite Hx.
    assert (Hb : path_segments (string_of_list_ascii (rev seg))
                 = [string_of_list_ascii (rev seg)]).
    { rewrite path_segments_of_list.
      by rewrite (segments_plain _ (plain_rev _ Hseg)). }
    rewrite Hb.
    destruct r3 as [|c3 r3].
    + destruct (is_slash c0) eqn:Hc0.
      * apply is_slash_eq in Hc0 as ->.
        split; [done|]. split; [done|]. split; [by apply plain_rev|]. done.
      * split; [done|]. split; [by cbn; rewrite Hc0|].
        split; [by apply plain_rev|]. by rewrite path_segments_of_list.
    + split; [done|]. split; [done|].
      split; [by apply plain_rev|]. by rewrite path_segments_of_list.
Qed.

(** *** Following segments *)

Lemma push_name allow stack seg :
  counts seg = true → seg ≠ ".." → push_segment allow stack seg = seg :: stack.
Proof.
  unfold counts, push_segment. intros H%negb_true_iff Hne. rewrite H.
  by apply String.eqb_neq in Hne as ->.
Qed.

Lemma push_up allow stack top :
  top ≠ ".." → push_segment allow (top :: stack) ".." = stack.
Proof.
  intros Hne. unfold push_segment. cbn [String.eqb orb].
  change (".." =? "..")%string with true. cbn match.
  by apply String.eqb_neq in Hne as ->.
Qed.

Lemma push_tidy allow stack seg :
  tidy stack → plain (list_ascii_of_string seg) →
  tidy (push_segment allow stack seg).
Proof.
  intros Hstack Hseg. unfold push_segment.
  destruct (String.eqb seg "" || String.eqb seg ".") eqn:Hidle; [done|].
  assert (Hcounts : counts seg = true) by (unfold counts; by rewrite Hidle).
  destruct (String.eqb seg ".."); [|by constructor].
  destruct Hstack as [|top below Htop Hbelow].
  - destruct allow; by repeat constructor.
  - destruct (String.eqb top ".."); [|done].
    destruct allow; [|by constructor].
    constructor; [done|by constructor].
Qed.

Lemma segments_all_plain cs : Forall plain (segments cs).
Proof.
  induction cs as [|c cs IH]; [by repeat constructor|].
  cbn [segments]. destruct (is_slash c) eqn:Hc; [by constructor|].
  destruct (segments_nonempty cs) as (seg & rest & Hcs). rewrite Hcs in *.
  apply Forall_cons in IH as [Hseg Hrest].
  constructor; [by apply plain_cons|done].
Qed.

Lemma path_segments_plain p :
  Forall (fun seg => plain (list_ascii_of_string seg)) (path_segments p).
Proof.
  unfold path_segments. apply Forall_fmap.
  eapply Forall_impl; [apply segments_all_plain|].
  intros seg Hseg. cbn. by rewrite chars_of_list.
Qed.

Lemma fold_push_tidy allow l stack :
  tidy stack → Forall (fun seg => plain (list_ascii_of_string seg)) l →
  tidy (fold_left (push_segment allow) l stack).
Proof.
  intros Hstack Hl. revert stack Hstack.
  induction Hl as [|seg l Hseg _ IH]; intros stack Hstack; [done|].
  cbn [fold_left]. by apply IH, push_tidy.
Qed.

Lemma walk_tidy allow p : tidy (walk allow p []).
Proof. apply fold_push_tidy; [constructor|apply path_segments_plain]. Qed.

(** What [normalizeString] keeps, followed again, leads where the segments
    themselves lead, from anywhere. *)
Lemma kept_stack_follows l allow stack :
  Forall (fun seg => plain (list_ascii_of_string seg)) l →
  fold_left (push_segment allow) (rev (fold_left (push_segment true) l [])) stack
  = fold_left (push_segment allow) l stack.
Proof.
  induction l as [|seg l IH] using rev_ind; intros Hl; [done|].
  apply Forall_app in Hl as [Hl Hseg]. rewrite Forall_singleton in Hseg.
  specialize (IH Hl).
  pose proof (fold_push_tidy true l [] (Forall_nil_2 _) Hl) as Htidy.
  rewrite !fold_left_app. cbn [fold_left]. rewrite <- IH.
  set (S' := fold_left (push_segment true) l []) in *.
  destruct (counts seg) eqn:Hcounts; [|by rewrite !push_idle].
  destruct (String.eqb_spec seg "..") as [->|Hne].
  - destruct Htidy as [|top below [Htop _] _]; [done|].
    destruct (String.eqb_spec top "..") as [->|Hne].
    + change (push_segment true (".." :: below) "..") with (".." :: ".." :: below).
      cbn [rev]. by rewrite fold_left_app.
    + rewrite (push_up true _ _ Hne). cbn [rev]. rewrite fold_left_app.
      cbn [fold_left]. by rewrite (push_name _ _ _ Htop Hne), push_up.
  - rewrite (push_name true _ _ Hcounts Hne). cbn [rev].
    by rewrite fold_left_app.
Qed.

(** Below the root no [..] is kept, and the segments kept are pushed as
    they are. *)
Lemma push_names allow names stack :
  Forall (fun seg => counts seg = true ∧ seg ≠ "..") names →
  fold_left (push_segment allow) names stack = rev names ++ stack.
Proof.
  intros H. revert stack. induction H as [|seg names [Hc Hne] _ IH]; intros stack.
  - done.
  - cbn [fold_left rev]. rewrite IH, (push_name _ _ _ Hc Hne).
    by rewrite <- app_assoc.
Qed.

Lemma push_rooted stack seg :
  Forall (fun seg => counts seg = true ∧ seg ≠ "..") stack →
  Forall (fun seg => counts seg = true ∧ seg ≠ "..") (push_segment false stack seg).
Proof.
  intros Hstack. unfold push_segment.
  destruct (String.eqb seg "" || String.eqb seg ".") eqn:Hidle; [done|].
  assert (Hcounts : counts seg = true) by (unfold counts; by rewrite Hidle).
  destruct (String.eqb_spec seg "..") as [->|Hne]; [|by constructor].
  destruct Hstack as [|top below Htop Hbelow]; [done|].
  destruct (String.eqb top ".."); [by constructor|done].
Qed.

Lemma walk_rooted p :
  Forall (fun seg => counts seg = true ∧ seg ≠ "..") (walk false p []).
Proof.
  unfold walk. generalize (path_segments p), (@nil string), (Forall_nil_2
    (fun seg : string => counts seg = true ∧ seg ≠ "..")).
  intros l. induction l as [|seg l IH]; intros stack Hstack; [done|].
  cbn [fold_left]. by apply IH, push_rooted.
Qed.

(** *** The segments of a joined stack *)

Lemma path_segments_plain_one seg :
  plain (list_ascii_of_string seg) → path_segments seg = [seg].
Proof.
  intros Hseg. unfold path_segments. rewrite (segments_plain _ Hseg).
  cbn. by rewrite string_of_list_ascii_of_string.
Qed.

Lemma join_slash_segments first names :
  Forall (fun seg => plain (list_ascii_of_string seg)) (first :: names) →
  path_segments (join_slash (first :: names)) = first :: names.
Proof.
  intros H. apply Forall_cons in H as [Hfirst Hnames]. cbn [join_slash].
  assert (Hgen : ∀ acc,
            path_segments (fold_left (fun acc x => acc +:+ "/" +:+ x) names acc)
            = path_segments acc ++ names).
  { induction Hnames as [|seg names Hseg _ IH]; intros acc.
    - by rewrite app_nil_r.
    - cbn [fold_left]. rewrite IH, path_segments_join.
      rewrite (path_segments_plain_one _ Hseg). by rewrite <- app_assoc. }
  by rewrite Hgen, (path_segments_plain_one _ Hfirst).
Qed.

Lemma join_slash_tidy names :
  tidy names → names ≠ [] →
  path_segments (join_slash names) = names
  ∧ String.eqb (join_slash names) "" = false
  ∧ is_absolute (join_slash names) = false.
Proof.
  intros Htidy Hne. destruct names as [|first names]; [done|].
  assert (Hsegs : path_segments (join_slash (first :: names)) = first :: names).
  { apply join_slash_segments. eapply Forall_impl; [exact Htidy|]. by intros ? [_ ?]. }
  apply Forall_cons in Htidy as [[Hcounts _] _].
  split; [done|].
  unfold path_segments, is_absolute in *.
  destruct (list_ascii_of_string (join_slash (first :: names))) as [|c cs] eqn:Hcs.
  - cbn in Hsegs. injection Hsegs as <- _. done.
  - split.
    + apply String.eqb_neq. intros Heq. by rewrite Heq in Hcs.
    + cbn [segments] in Hsegs. destruct (is_slash c); [|done].
      cbn in Hsegs. injection Hsegs as <- _. done.
Qed.

(** *** [normalize], [join] and [resolve] *)

Lemma chars_empty p : list_ascii_of_string p = [] → p = "".
Proof.
  intros H. rewrite <- (string_of_list_ascii_of_string p). by rewrite H.
Qed.

Lemma walk_join allow a b stack :
  walk allow (a +:+ "/" +:+ b) stack = walk allow b (walk allow a stack).
Proof. unfold walk. by rewrite path_segments_join, fold_left_app. Qed.

Lemma walk_trailing allow p stack : walk allow (p +:+ "/") stack = walk allow p stack.
Proof. change (p +:+ "/") with (p +:+ "/" +:+ ""). by rewrite walk_join. Qed.

Lemma walk_leading allow p stack : walk allow ("/" +:+ p) stack = walk allow p stack.
Proof. change ("/" +:+ p) with ("" +:+ "/" +:+ p). by rewrite walk_join. Qed.

Lemma walk_kept allow p q stack :
  kept (path_segments p) = kept (path_segments q) →
  walk allow p stack = walk allow q stack.
Proof.
  intros H. unfold walk.
  by rewrite <- (fold_push_kept _ (path_segments p)), H, fold_push_kept.
Qed.

Lemma is_absolute_app a b : a ≠ "" → is_absolute (a +:+ b) = is_absolute a.
Proof.
  intros Ha. unfold is_absolute. rewrite chars_app.
  destruct (list_ascii_of_string a) eqn:Hcs; [|done].
  by apply chars_empty in Hcs.
Qed.

Lemma normalize_relative q :
  q ≠ "" → is_absolute q = false →
  is_absolute (normalize q) = false
  ∧ ∀ allow stack, walk allow (normalize q) stack = walk allow q stack.
Proof.
  intros Hq Hrel. unfold normalize. unfold is_absolute in Hrel.
  destruct (list_ascii_of_string q) as [|c0 rest] eqn:Hcs.
  { by apply chars_empty in Hcs. }
  rewrite Hrel. cbn [negb]. unfold normalizeString.
  assert (Hfollow : ∀ allow stack,
            fold_left (push_segment allow) (rev (walk true q [])) stack
            = walk allow q stack).
  { intros allow stack. apply kept_stack_follows, path_segments_plain. }
  pose proof (walk_tidy true q) as Htidy. apply Forall_rev in Htidy.
  destruct (rev (walk true q [])) as [|first names] eqn:Hnames.
  - cbn [join_slash String.eqb].
    split; [by destruct (last _) as [c|]; [destruct (is_slash c)|]|].
    intros allow stack. rewrite <- Hfollow. cbn [fold_left].
    by destruct (last _) as [c|]; [destruct (is_slash c)|].
  - destruct (join_slash_tidy (first :: names) Htidy) as (Hsegs & Hne & Habs); [done|].
    rewrite Hne. apply String.eqb_neq in Hne.
    assert (Hwalk : ∀ allow stack,
              walk allow (join_slash (first :: names)) stack = walk allow q stack).
    { intros allow stack. rewrite <- Hfollow. unfold walk at 1. by rewrite Hsegs. }
    destruct (match last (c0 :: rest) with Some c => is_slash c | None => false end).
    + split; [by rewrite is_absolute_app|].
      intros allow stack. by rewrite walk_trailing.
    + by split.
Qed.

Lemma normalize_absolute q :
  is_absolute q = true →
  is_absolute (normalize q) = true
  ∧ walk false (normalize q) [] = walk false q [].
Proof.
  intros Habs. unfold normalize. unfold is_absolute in Habs.
  destruct (list_ascii_of_string q) as [|c0 rest] eqn:Hcs; [done|].
  rewrite Habs. cbn [negb]. unfold normalizeString.
  pose proof (walk_tidy false q) as Htidy. apply Forall_rev in Htidy.
  pose proof (walk_rooted q) as Hrooted. apply Forall_rev in Hrooted.
  assert (Hback : fold_left (push_segment false) (rev (walk false q [])) []
                  = walk false q []).
  { by rewrite (push_names _ _ _ Hrooted), rev_involutive, app_nil_r. }
  destruct (rev (walk false q [])) as [|first names] eqn:Hnames.
  - cbn [join_slash String.eqb]. split; [done|]. by rewrite <- Hback.
  - destruct (join_slash_tidy (first :: names) Htidy) as (Hsegs & Hne & _); [done|].
    rewrite Hne.
    assert (Hwalk : walk false (join_slash (first :: names)) [] = walk false q []).
    { rewrite <- Hback. unfold walk. by rewrite Hsegs. }
    destruct (match last (c0 :: rest) with Some c => is_slash c | None => false end).
    + split; [done|]. by rewrite walk_leading, walk_trailing.
    + split; [done|]. by rewrite walk_leading.
Qed.

(** Two paths [path.resolve] cannot tell apart. *)
Lemma path_resolve_same cwd p q :
  is_absolute p = is_absolute q →
  (is_absolute q = false → ∀ allow stack, walk allow p stack = walk allow q stack) →
  (is_absolute q = true → walk false p [] = walk false q []) →
  path_resolve cwd p = path_resolve cwd q.
Proof.
  intros Habs Hrel Hroot. unfold path_resolve, normalizeString.
  assert (Hfrom : ∀ r allow stack,
            walk allow (if String.eqb r "" then "" else r +:+ "/") stack
            = walk allow r stack).
  { intros r allow stack. destruct (String.eqb_spec r "") as [->|_]; [done|].
    apply walk_trailing. }
  assert (Hfrom_abs : ∀ r,
            is_absolute (if String.eqb r "" then "" else r +:+ "/") = is_absolute r).
  { intros r. destruct (String.eqb_spec r "") as [->|Hr]; [done|].
    by apply is_absolute_app. }
  rewrite Habs. destruct (is_absolute q) eqn:Hq.
  - rewrite !Hfrom_abs, Habs, Hq. cbn [negb].
    by rewrite !Hfrom, Hroot.
  - specialize (Hrel eq_refl).
    destruct (String.eqb_spec cwd "") as [->|Hcwd].
    + rewrite !Hfrom_abs, Habs, Hq. cbn [negb]. by rewrite !Hfrom, Hrel.
    + rewrite !(is_absolute_app cwd) by done.
      by rewrite !walk_join, !Hfrom, Hrel.
Qed.

(** [path.join(path.dirname(x), path.basename(x))] names the file [x]
    names, whatever the working directory: the destination write-in-place
    hands to [imagemin] is the source. *)
Lemma same_file cwd x :
  path_resolve cwd (path_join (dirname x) (basename x)) = path_resolve cwd x.
Proof.
  destruct (dir_base_chars (list_ascii_of_string x)) as (Hd & Habs & _ & Hkept).
  rewrite string_of_list_ascii_of_string in Hd, Habs, Hkept.
  assert (Hjoin : ∃ q, path_join (dirname x) (basename x) = normalize q
                       ∧ q ≠ "" ∧ is_absolute q = is_absolute x
                       ∧ kept (path_segments q) = kept (path_segments x)).
  { unfold path_join. apply String.eqb_neq in Hd as Hd'. rewrite Hd'.
    destruct (String.eqb_spec (basename x) "") as [Hb|Hb].
    - exists (dirname x). split; [done|]. split; [done|]. split; [done|].
      rewrite <- Hkept, Hb, path_segments_join, kept_app. by rewrite app_nil_r.
    - exists (dirname x +:+ "/" +:+ basename x). split; [done|].
      split; [|split; [by rewrite is_absolute_app|done]].
      intros Heq. apply Hd. by destruct (dirname x). }
  destruct Hjoin as (q & -> & Hq & Hqabs & Hqkept).
  destruct (is_absolute x) eqn:Hx.
  - destruct (normalize_absolute q Hqabs) as [Hnabs Hnwalk].
    apply path_resolve_same; [by rewrite Hx|by rewrite Hx|].
    intros _. rewrite Hnwalk. by apply walk_kept.
  - destruct (normalize_relative q Hq Hqabs) as [Hnabs Hnwalk].
    apply path_resolve_same; [by rewrite Hx| |by rewrite Hx].
    intros _ allow stack. rewrite Hnwalk. by apply walk_kept.
Qed.

(** * Further properties of whole runs *)

(** ** Framing an observation *)

Section Frame.
Context {B : Type} (obs : Proc → B).

Lemma preserves_ret {A} (a : A) : preserves obs (ret a).
Proof. by intros s. Qed.

Lemma preserves_bind {A C} (m : M A) (k : A → M C) :
  preserves obs m → (∀ a, preserves obs (k a)) → preserves obs (bind m k).
Proof.
  intros Hm Hk s. unfold bind. specialize (Hm s).
  destruct (m s) as [a s'|e s'|c s']; cbn in *; [|done|done].
  by rewrite Hk.
Qed.

(** The continuation only has to behave on what the first part can return. *)
Lemma preserves_bind_post {A C} (P : A → Prop) (m : M A) (k : A → M C) :
  (∀ s a s', m s = Ret a s' → P a) →
  preserves obs m → (∀ a, P a → preserves obs (k a)) → preserves obs (bind m k).
Proof.
  intros HP Hm Hk s. unfold bind. specialize (Hm s). specialize (HP s).
  destruct (m s) as [a s'|e s'|c s']; cbn in *; [|done|done].
  rewrite Hk; [done|]. by eapply HP.
Qed.

Lemma preserves_then {A C} (p : Settled A) (f : A → M C) :
  (∀ a, preserves obs (f a)) → preserves obs (then_ p f).
Proof.
  intros Hf s. unfold then_. destruct p as [a|e]; [|done].
  specialize (Hf a s). by destruct (f a s).
Qed.

Lemma preserves_catch {A} (p : Settled A) (h : Error → M A) :
  (∀ e, preserves obs (h e)) → preserves obs (catch_ p h).
Proof.
  intros Hh s. unfold catch_. destruct p as [a|e]; [done|].
  specialize (Hh e s). by destruct (h e s).
Qed.

Lemma preserves_event_loop {St} (step : nat → St → M St) sched st :
  (∀ i st, preserves obs (step i st)) → preserves obs (event_loop step sched st).
Proof.
  intros Hstep. revert st. induction sched as [|i sched IH]; intros st; [done|].
  cbn [event_loop]. apply preserves_bind; [apply Hstep|apply IH].
Qed.

Lemma preserves_if {A} (b : bool) (m1 m2 : M A) :
  preserves obs m1 → preserves obs m2 → preserves obs (if b then m1 else m2).
Proof. by destruct b. Qed.

End Frame.

Ltac frame :=
  repeat first
    [ apply preserves_ret
    | apply preserves_bind; [|intros ?]
    | apply preserves_then; intros ?
    | apply preserves_catch; intros ?
    | apply preserves_if
    | by intros ? ].

Lemma preserves_unobserved {A B} (obs : Proc → B) (p : Settled A) :
  (∀ s e, obs {| stdout := stdout s; stderr := stderr s; fs := fs s;
                 spinning := spinning s; calls := calls s;
                 unhandled := unhandled s ++ [e] |} = obs s) →
  preserves obs (unobserved p).
Proof.
  intros Hobs s. unfold unobserved. destruct p as [a|e]; [done|]. apply Hobs.
Qed.

Lemma preserves_apply_writes {B} (obs : Proc → B) ws :
  (∀ s m, obs (on_disk m s) = obs s) → preserves obs (apply_writes ws).
Proof. intros Hobs s. rewrite apply_writes_spec. apply Hobs. Qed.

(** *** The disk *)

Lemma preserves_fs_requirePlugins env names : preserves fs (requirePlugins env names).
Proof.
  induction names as [|x names IH]; cbn [requirePlugins]; [frame|].
  apply preserves_bind; [destruct (resolve env x); frame|].
  intros h. apply preserves_bind; [exact IH|]. intros hs. apply preserves_ret.
Qed.

Lemma preserves_fs_runSingle_then o fl : preserves fs (runSingle_then o fl).
Proof.
  intros s. unfold runSingle_then.
  destruct (truthy o); cbn [negb andb]; [done|].
  destruct fl as [|f [|g fl]]; done.
Qed.

Lemma preserves_fs_report p : preserves fs (report p).
Proof.
  unfold report. apply preserves_bind.
  - apply preserves_then. intros [|elems] s; done.
  - intros r. apply preserves_bind; [|intros; by apply preserves_unobserved].
    apply preserves_catch. by intros e s.
Qed.

Lemma handleFile_no_writes env files o use x :
  truthy o = false → (handleFile env files o use x).2 = [].
Proof.
  intros Ho. unfold handleFile. rewrite Ho.
  destruct (files !! file_key env x) as [raw|]; [|done]. by destruct (pPipe use raw).
Qed.

Lemma imagemin_no_writes env files input o use :
  truthy o = false → writes (imagemin env files input o use) = [].
Proof.
  intros Ho. unfold imagemin. cbn [writes].
  induction (glob env input) as [|x paths IH]; [done|].
  cbn [fmap list_fmap concat] in *. by rewrite handleFile_no_writes, IH.
Qed.

Lemma runSingle_returns env use input o s j s' :
  runSingle env use input o s = Ret j s' → j = imagemin env (fs s) input o use.
Proof. rewrite runSingle_spec. congruence. Qed.

Lemma preserves_fs_runSingle_settle j o :
  writes j = [] → preserves fs (runSingle_settle j o).
Proof.
  intros Hw. unfold runSingle_settle. rewrite Hw.
  apply preserves_bind; [by intros s|].
  intros _. apply preserves_then. apply preserves_fs_runSingle_then.
Qed.

(** X1.  Piped input, and a path list with neither [--write] nor an
    output directory (absent or empty), never change a file: whatever the
    plugins do, whether they load or not, and in whatever order the calls
    complete, the disk at the end is the disk at the start. *)
Theorem no_destination_no_writes env input opts sched s :
  match input with
  | Buffer _ => True
  | Paths _ => write opts = false ∧ truthy (outDir opts) = false
  end →
  fs (final_state (run env input opts sched s)) = fs s.
Proof.
  intros Hmode. revert s. change (preserves fs (run env input opts sched)).
  unfold run. apply preserves_bind; [apply preserves_fs_requirePlugins|].
  intros use. destruct input as [b|input].
  - apply preserves_bind; [|intros; by apply preserves_unobserved].
    apply preserves_then. by intros buf s.
  - destruct Hmode as [Hw Ho]. cbn [outDir write assign_defaults].
    rewrite Hw, Ho. cbn [orb negb].
    apply preserves_bind; [frame|]. intros _.
    apply (preserves_bind_post fs (fun j => writes j = [])).
    { intros s j s' Hj. apply runSingle_returns in Hj as ->.
      by apply imagemin_no_writes. }
    { by intros s. }
    intros j1 Hj1.
    apply (preserves_bind_post fs (fun j => writes j = [])).
    { intros s j s' Hj. apply runSingle_returns in Hj as ->.
      by apply imagemin_no_writes. }
    { by intros s. }
    intros j2 Hj2.
    apply preserves_event_loop. intros [|[|i]] st; cbn [paths_done].
    + apply preserves_bind; [by apply preserves_fs_runSingle_settle|].
      intros q. apply preserves_fs_report.
    + apply preserves_bind; [by apply preserves_fs_runSingle_settle|].
      intros q. by apply preserves_unobserved.
    + frame.
Qed.

Lemma no_destination_no_writes_witness :
  fs (final_state
        (run sample_env (Paths ["a/*.png"; "d.png"])
           (with_plugin "picky" (Some "") false) [1; 0]%nat (fresh sample_disk)))
  = sample_disk.
Proof.
  apply (no_destination_no_writes sample_env
           (Paths ["a/*.png"; "d.png"]) (with_plugin "picky" (Some "") false)
           [1; 0]%nat (fresh sample_disk)).
  split; reflexivity.
Defined.

(** *** Standard output *)

Lemma preserves_stdout_requirePlugins env names :
  preserves stdout (requirePlugins env names).
Proof.
  induction names as [|x names IH]; cbn [requirePlugins]; [frame|].
  apply preserves_bind; [destruct (resolve env x); frame|].
  intros h. apply preserves_bind; [exact IH|]. intros hs. apply preserves_ret.
Qed.

Lemma preserves_stdout_runSingle_settle j o :
  truthy o = true → preserves stdout (runSingle_settle j o).
Proof.
  intros Ho. unfold runSingle_settle.
  apply preserves_bind; [by apply preserves_apply_writes|].
  intros _. apply preserves_then. intros fl s.
  unfold runSingle_then. by rewrite Ho.
Qed.

(** The summary handler prints only when it is given an array. *)
Lemma preserves_stdout_report (p : Settled Value) :
  (∀ elems, p ≠ Fulfilled (VArray elems)) → preserves stdout (report p).
Proof.
  intros Hp s. destruct p as [[|elems]|e].
  - by rewrite report_undefined.
  - by destruct (Hp elems).
  - by rewrite report_rejected.
Qed.

(** X2.  A path list with an output directory and without [--write] never
    puts a byte on standard output: no file data, and no summary either,
    whether the files are handled or not. *)
Theorem out_dir_keeps_stdout_silent env input opts sched s :
  write opts = false →
  truthy (outDir opts) = true →
  stdout (final_state (run env (Paths input) opts sched s)) = stdout s.
Proof.
  intros Hw Ho. revert s. change (preserves stdout (run env (Paths input) opts sched)).
  unfold run. apply preserves_bind; [apply preserves_stdout_requirePlugins|].
  intros use. cbn [outDir write assign_defaults]. rewrite Hw, Ho. cbn [orb negb].
  apply preserves_bind; [by intros s|]. intros _.
  apply preserves_bind; [by intros s|]. intros j1.
  apply preserves_bind; [by intros s|]. intros j2.
  apply preserves_event_loop. intros [|[|i]] st; cbn [paths_done].
  - apply (preserves_bind_post stdout (fun q => ∀ elems, q ≠ Fulfilled (VArray elems))).
    + intros s1 q s2 Hq elems ->. by apply runSingle_settle_returns in Hq.
    + by apply preserves_stdout_runSingle_settle.
    + intros q Hq. by apply preserves_stdout_report.
  - apply preserves_bind; [by apply preserves_stdout_runSingle_settle|].
    intros q. by apply preserves_unobserved.
  - apply preserves_ret.
Qed.

Lemma out_dir_keeps_stdout_silent_witness :
  stdout (final_state
            (run sample_env (Paths ["a/*.png"; "d.png"])
               (with_plugin "flip" (Some "build") false) [0; 1]%nat
               (fresh sample_disk)))
  = [].
Proof.
  apply (out_dir_keeps_stdout_silent sample_env
           ["a/*.png"; "d.png"] (with_plugin "flip" (Some "build") false)
           [0; 1]%nat (fresh sample_disk)); reflexivity.
Defined.

(** *** Standard error *)

Lemma preserves_stderr_report p : preserves stderr (report p).
Proof.
  unfold report. apply preserves_bind.
  - apply preserves_then. intros [|elems] s; done.
  - intros r. apply preserves_bind; [|intros; by apply preserves_unobserved].
    apply preserves_catch. by intros e s.
Qed.

Lemma preserves_stderr_runSingle_settle j o :
  truthy o = true → preserves stderr (runSingle_settle j o).
Proof.
  intros Ho. unfold runSingle_settle.
  apply preserves_bind; [by apply preserves_apply_writes|].
  intros _. apply preserves_then. intros fl s.
  unfold runSingle_then. by rewrite Ho.
Qed.

Lemma preserves_stderr_item_done jobs i st :
  preserves stderr (item_done jobs i st).
Proof.
  unfold item_done. destruct (jobs !! i) as [[x j]|]; [|apply preserves_ret].
  apply preserves_bind; [apply preserves_stderr_runSingle_settle, dirname_truthy|].
  intros [v|e].
  - apply preserves_if; [|apply preserves_ret].
    apply preserves_bind; [by intros s|]. intros results.
    apply preserves_bind; [apply preserves_stderr_report|]. intros _. apply preserves_ret.
  - apply preserves_if; [apply preserves_ret|].
    apply preserves_bind; [by intros s|]. intros results.
    apply preserves_bind; [apply preserves_stderr_report|]. intros _. apply preserves_ret.
Qed.

(** X3.  Once the plugins have loaded, a path list that has a destination
    ([--write], or an output directory) makes [cli.js] print no diagnostic of
    its own: standard error receives nothing from it, for any number of files,
    any plugin failure and any order of completion. *)
Theorem destination_keeps_stderr_silent env input opts sched s hs :
  resolves_to env (arrify (plugin (assign_defaults opts))) hs →
  write opts = true ∨ truthy (outDir opts) = true →
  stderr (final_state (run env (Paths input) opts sched s)) = stderr s.
Proof.
  intros Hres Hdest. rewrite (run_resolved _ _ _ _ _ _ Hres).
  revert s. apply preserves_bind; [apply preserves_if; by intros s|]. intros _.
  destruct (write opts) eqn:Hw; cbn [negb].
  - apply preserves_bind.
    { intros s. by rewrite dispatch_spec. }
    intros jobs. apply preserves_if.
    + apply preserves_bind; [by intros s|]. intros results.
      apply preserves_stderr_report.
    + apply preserves_bind; [|intros; apply preserves_ret].
      apply preserves_event_loop. intros i st. apply preserves_stderr_item_done.
  - destruct Hdest as [?|Ho]; [done|].
    apply preserves_bind; [by intros s|]. intros j1.
    apply preserves_bind; [by intros s|]. intros j2.
    apply preserves_event_loop. intros [|[|i]] st; cbn [paths_done].
    + apply preserves_bind; [by apply preserves_stderr_runSingle_settle|].
      intros q. apply preserves_stderr_report.
    + apply preserves_bind; [by apply preserves_stderr_runSingle_settle|].
      intros q. by apply preserves_unobserved.
    + apply preserves_ret.
Qed.

Lemma destination_keeps_stderr_silent_witness :
  stderr (final_state
            (run sample_env (Paths ["a/*.png"; "d.png"])
               (with_plugin "picky" (Some "build") true) [2; 1; 0]%nat
               (fresh sample_disk)))
  = [].
Proof.
  apply (destination_keeps_stderr_silent sample_env
           ["a/*.png"; "d.png"] (with_plugin "picky" (Some "build") true)
           [2; 1; 0]%nat (fresh sample_disk) [picky]).
  - repeat constructor.
  - by left.
Defined.

(** ** How a run can end *)

Lemma tame_ret {A} (a : A) : tame (ret a).
Proof. by intros s. Qed.

Lemma tame_bind {A C} (m : M A) (k : A → M C) :
  tame m → (∀ a, tame (k a)) → tame (bind m k).
Proof.
  intros Hm Hk s. unfold bind. specialize (Hm s).
  destruct (m s) as [a s'|e s'|c s']; [apply Hk|done|done].
Qed.

Lemma tame_then {A C} (p : Settled A) (f : A → M C) :
  (∀ a, exits_one (f a)) → tame (then_ p f).
Proof.
  intros Hf s. unfold then_. destruct p as [a|e]; [|done].
  specialize (Hf a s). destruct (f a s) as [b s'|e s'|c s']; [done|done|].
  by eapply Hf.
Qed.

Lemma tame_catch {A} (p : Settled A) (h : Error → M A) :
  (∀ e, exits_one (h e)) → tame (catch_ p h).
Proof.
  intros Hh s. unfold catch_. destruct p as [a|e]; [done|].
  specialize (Hh e s). destruct (h e s) as [b s'|e' s'|c s']; [done|done|].
  by eapply Hh.
Qed.

Lemma tame_unobserved {A} (p : Settled A) : tame (unobserved p).
Proof. intros s. unfold unobserved. by destruct p. Qed.

Lemma tame_event_loop {St} (step : nat → St → M St) sched st :
  (∀ i st, tame (step i st)) → tame (event_loop step sched st).
Proof.
  intros Hstep. revert st. induction sched as [|i sched IH]; intros st; [done|].
  cbn [event_loop]. apply tame_bind; [apply Hstep|apply IH].
Qed.

Lemma tame_if {A} (b : bool) (m1 m2 : M A) :
  tame m1 → tame m2 → tame (if b then m1 else m2).
Proof. by destruct b. Qed.

Lemma tame_requirePlugins env names : tame (requirePlugins env names).
Proof.
  induction names as [|x names IH]; cbn [requirePlugins]; [apply tame_ret|].
  apply tame_bind; [by destruct (resolve env x)|].
  intros h. apply tame_bind; [exact IH|]. intros hs. apply tame_ret.
Qed.

Lemma exits_one_runSingle_then o fl : exits_one (runSingle_then o fl).
Proof.
  intros s c s'. unfold runSingle_then.
  destruct (truthy o); cbn [negb andb]; [done|].
  destruct fl as [|f [|g fl]]; intros H; cbn in H; by simplify_eq.
Qed.

Lemma tame_report p : tame (report p).
Proof.
  unfold report. apply tame_bind.
  - apply tame_then. intros [|elems] s c s'; done.
  - intros r. apply tame_bind; [|intros; apply tame_unobserved].
    apply tame_catch. by intros e s c s'.
Qed.

Lemma tame_runSingle_settle j o : tame (runSingle_settle j o).
Proof.
  unfold runSingle_settle. apply tame_bind.
  - intros s. by rewrite apply_writes_spec.
  - intros _. apply tame_then. intros fl. apply exits_one_runSingle_then.
Qed.

Lemma tame_item_done jobs i st : tame (item_done jobs i st).
Proof.
  unfold item_done. destruct (jobs !! i) as [[x j]|]; [|apply tame_ret].
  apply tame_bind; [apply tame_runSingle_settle|].
  intros [v|e].
  - apply tame_if; [|apply tame_ret].
    apply tame_bind; [by intros s|]. intros results.
    apply tame_bind; [apply tame_report|]. intros _. apply tame_ret.
  - apply tame_if; [apply tame_ret|].
    apply tame_bind; [by intros s|]. intros results.
    apply tame_bind; [apply tame_report|]. intros _. apply tame_ret.
Qed.

Lemma tame_run env input opts sched : tame (run env input opts sched).
Proof.
  unfold run. apply tame_bind; [apply tame_requirePlugins|].
  intros use. destruct input as [b|input].
  - apply tame_bind; [|intros; apply tame_unobserved].
    apply tame_then. by intros buf s c s'.
  - apply tame_bind; [apply tame_if; by intros s|]. intros _.
    apply tame_if.
    + apply tame_bind; [by intros s|]. intros j1.
      apply tame_bind; [by intros s|]. intros j2.
      apply tame_event_loop. intros [|[|i]] st; cbn [paths_done].
      * apply tame_bind; [apply tame_runSingle_settle|]. intros q. apply tame_report.
      * apply tame_bind; [apply tame_runSingle_settle|]. intros q.
        apply tame_unobserved.
      * apply tame_ret.
    + apply tame_bind.
      { intros s. by rewrite dispatch_spec. }
      intros jobs. apply tame_if.
      * apply tame_bind; [by intros s|]. intros results. apply tame_report.
      * apply tame_bind; [|intros; apply tame_ret].
        apply tame_event_loop. intros i st. apply tame_item_done.
Qed.

(** X4.  However the program is invoked and whatever the plugins and the
    disk do, the process either runs until nothing is pending, and then its
    status is 1 when a rejection was left unhandled and 0 otherwise, or it is
    ended by [process.exit(1)].  What is thrown inside a promise callback
    becomes a rejection, never an exception that unwinds [run], and no other
    status is ever passed to [process.exit]: the status is 0 or 1. *)
Theorem main_ends_with_0_or_1 env input flags sched s :
  ((∃ s', main env input flags sched s = Ret tt s'
          ∧ exit_status (main env input flags sched s) = status_at_end s')
   ∨ (∃ s', main env input flags sched s = Exit 1 s'
            ∧ exit_status (main env input flags sched s) = 1%Z))
  ∧ (exit_status (main env input flags sched s) = 0%Z
     ∨ exit_status (main env input flags sched s) = 1%Z).
Proof.
  assert (Hmain : tame (main env input flags sched)).
  { unfold main. apply tame_bind; [apply tame_if; by intros s0|].
    intros _. apply tame_if; apply tame_run. }
  specialize (Hmain s).
  destruct (main env input flags sched s) as [[] s'|e s'|c s']; [|done|].
  - split; [left; by exists s'|]. cbn. destruct (unhandled s'); auto.
  - subst c. split; [right; by exists s'|]. by right.
Qed.

Lemma all_or_one {A} (f : string → Settled A) (paths : list string) :
  (∀ x, x ∈ paths → ∃ a, f x = Fulfilled a)
  ∨ (∃ x e, x ∈ paths ∧ f x = Rejected e).
Proof.
  induction paths as [|x paths [IH|(y & e & Hy & He)]].
  - left. intros x Hx. by apply elem_of_nil in Hx.
  - destruct (f x) as [a|e] eqn:Hx.
    + left. intros y Hy. apply elem_of_cons in Hy as [->|Hy]; [by exists a|by apply IH].
    + right. exists x, e. split; [by apply elem_of_cons; left|done].
  - right. exists y, e. split; [by apply elem_of_cons; right|done].
Qed.

(** X5.  With [--write], failures do reach the exit status.  A process
    that starts clean ends with status 0 exactly when every call of
    [imagemin] fulfils, and with status 1 exactly when one of them rejects,
    in whatever order the calls complete. *)
Theorem write_status_reflects_failures env input opts sched s hs :
  write opts = true →
  resolves_to env (arrify (plugin (assign_defaults opts))) hs →
  sched ≡ₚ seq 0 (length (glob env input)) →
  unhandled s = [] →
  (exit_status (run env (Paths input) opts sched s) = 0%Z
   ↔ ∀ x, x ∈ glob env input →
          ∃ fl, outcome (item_job env (fs s) hs x) = Fulfilled fl)
  ∧ (exit_status (run env (Paths input) opts sched s) = 1%Z
     ↔ ∃ x e, x ∈ glob env input
              ∧ outcome (item_job env (fs s) hs x) = Rejected e).
Proof.
  intros Hw Hres Hperm Hclean.
  destruct (all_or_one (fun x => outcome (item_job env (fs s) hs x)) (glob env input))
    as [Hall|Hone].
  - rewrite (run_write_fulfils _ _ _ _ _ _ Hres Hw Hperm Hall).
    cbn [exit_status unhandled]. rewrite Hclean. split; [done|].
    split; [done|]. intros (x & e & Hx & He).
    destruct (Hall x Hx) as [fl Hfl]. congruence.
  - destruct (run_write_rejects _ _ _ _ _ _ Hres Hw Hperm Hone)
      as (x & e & Hx & He & ->).
    cbn [exit_status unhandled]. rewrite Hclean. cbn [app]. split.
    + split; [done|]. intros Hall. destruct (Hall x Hx) as [fl Hfl]. congruence.
    + split; [|done]. intros _. by exists x, e.
Qed.

Lemma write_status_reflects_failures_witness :
  exit_status (run sample_env (Paths ["a/*.png"; "d.png"])
                 (with_plugin "picky" None true) [1; 0; 2]%nat (fresh sample_disk))
  = 1%Z.
Proof.
  destruct (write_status_reflects_failures sample_env ["a/*.png"; "d.png"]
              (with_plugin "picky" None true) [1; 0; 2]%nat (fresh sample_disk)
              [picky])
    as [_ [_ Hone]].
  - reflexivity.
  - repeat constructor.
  - apply (Permutation_swap 0%nat 1%nat).
  - reflexivity.
  - apply Hone. exists "a/c.png", (PluginFailure "a/c.png" "unsupported header").
    split; [|reflexivity].
    apply elem_of_cons; right. apply elem_of_cons; by left.
Defined.

(** ** Before anything is dispatched *)

(** X6.  Started on a terminal with no path on the command line, the
    program prints "Specify at least one filename" on standard error and ends
    with status 1.  This comes first: no plugin is loaded (a plugin that is
    not installed is not reported), no file is read and nothing is printed on
    standard output. *)
Theorem no_input_on_a_terminal env flags sched s :
  stdin_isTTY env = true →
  exit_status (main env [] flags sched s) = 1%Z
  ∧ stderr (final_state (main env [] flags sched s))
    = stderr s ++ ["Specify at least one filename"]
  ∧ stdout (final_state (main env [] flags sched s)) = stdout s
  ∧ fs (final_state (main env [] flags sched s)) = fs s
  ∧ calls (final_state (main env [] flags sched s)) = calls s
  ∧ unhandled (final_state (main env [] flags sched s)) = unhandled s.
Proof.
  intros Htty.
  assert (Hmain : main env [] flags sched s
                  = Exit 1 {| stdout := stdout s;
                              stderr := stderr s ++ ["Specify at least one filename"];
                              fs := fs s; spinning := spinning s; calls := calls s;
                              unhandled := unhandled s |}).
  { unfold main. cbn [length Nat.eqb andb]. by rewrite Htty. }
  by rewrite Hmain.
Qed.

Lemma no_input_on_a_terminal_witness :
  exit_status (main {| resolve := sample_resolve; glob := sample_glob;
                       cwd := "/work"; stdin_isTTY := true; stdin_data := [] |} []
                 (with_plugin "nope" None false) [] (fresh sample_disk)) = 1%Z
  ∧ stderr (final_state
              (main {| resolve := sample_resolve; glob := sample_glob;
                       cwd := "/work"; stdin_isTTY := true; stdin_data := [] |} []
                 (with_plugin "nope" None false) [] (fresh sample_disk)))
    = ["Specify at least one filename"].
Proof.
  destruct (no_input_on_a_terminal
              {| resolve := sample_resolve; glob := sample_glob;
                 cwd := "/work"; stdin_isTTY := true; stdin_data := [] |}
              (with_plugin "nope" None false) [] (fresh sample_disk))
    as (Hexit & Herr & _).
  - reflexivity.
  - by split.
Defined.

(** X7.  Plugins are loaded in the order they were requested and loading
    stops at the first name that fails: the process ends with status 1 and the
    one line on standard error is the diagnostic for that plugin (the text of
    lines 56-63 with the name put in, then stripped of its indentation and
    trimmed), whatever comes after it in the list; later names that are not
    installed either are not reported.  Nothing has been handed to [imagemin]
    by then, nothing is on standard output and the disk is untouched. *)
Theorem first_unknown_plugin_only env input opts sched s pre y post hs :
  arrify (plugin (assign_defaults opts)) = pre ++ y :: post →
  resolves_to env pre hs →
  resolve env y = None →
  exit_status (run env input opts sched s) = 1%Z
  ∧ stderr (final_state (run env input opts sched s))
    = stderr s ++ [trim (stripIndent (unknown_plugin_template y))]
  ∧ stdout (final_state (run env input opts sched s)) = stdout s
  ∧ fs (final_state (run env input opts sched s)) = fs s
  ∧ calls (final_state (run env input opts sched s)) = calls s
  ∧ unhandled (final_state (run env input opts sched s)) = unhandled s.
Proof.
  intros Hnames Hpre Hy.
  pose proof (requirePlugins_first_unknown env pre y post hs s Hpre Hy) as Hreq.
  rewrite <- Hnames in Hreq.
  by rewrite (run_unresolved _ _ _ _ _ _ _ Hreq).
Qed.

Lemma first_unknown_plugin_only_witness :
  stderr (final_state
            (run sample_env (Paths ["d.png"])
               {| plugin := Some (Many ["flip"; "nope "; "keep"; "neither"]);
                  outDir := None; write := false |}
               [0; 1]%nat (fresh sample_disk)))
  = [ "Unknown plugin: nope " +:+ nl +:+ nl +:+
      "Did you forget to install the plugin?" +:+ nl +:+
      "You can install it with:" +:+ nl +:+ nl +:+
      "  $ npm install -g imagemin-nope" ].
Proof.
  destruct (first_unknown_plugin_only sample_env (Paths ["d.png"])
              {| plugin := Some (Many ["flip"; "nope "; "keep"; "neither"]);
                 outDir := None; write := false |}
              [0; 1]%nat (fresh sample_disk) ["flip"] "nope " ["keep"; "neither"]
              [flip])
    as (_ & Herr & _).
  - reflexivity.
  - repeat constructor.
  - reflexivity.
  - rewrite Herr. reflexivity.
Defined.

(** ** Piped input *)

(** X8.  A piped buffer goes through the chain once and the result is
    written to standard output once; [--out-dir] and [--write] play no part
    and the disk is not touched.  When the chain fails nothing is written: the
    rejection has no handler, it is left unhandled and the process ends with
    status 1. *)
Theorem piped_buffer env b opts sched s hs :
  resolves_to env (arrify (plugin (assign_defaults opts))) hs →
  match pPipe hs b with
  | Transformed buf =>
      stdout (final_state (run env (Buffer b) opts sched s)) = stdout s ++ buf
      ∧ unhandled (final_state (run env (Buffer b) opts sched s)) = unhandled s
      ∧ exit_status (run env (Buffer b) opts sched s) = status_at_end s
  | Failed reason =>
      stdout (final_state (run env (Buffer b) opts sched s)) = stdout s
      ∧ unhandled (final_state (run env (Buffer b) opts sched s))
        = unhandled s ++ [PluginFailure "stdin buffer" reason]
      ∧ exit_status (run env (Buffer b) opts sched s) = 1%Z
  end
  ∧ stderr (final_state (run env (Buffer b) opts sched s)) = stderr s
  ∧ fs (final_state (run env (Buffer b) opts sched s)) = fs s
  ∧ calls (final_state (run env (Buffer b) opts sched s)) = calls s
  ∧ spinning (final_state (run env (Buffer b) opts sched s)) = spinning s.
Proof.
  intros Hres. rewrite (run_resolved _ _ _ _ _ _ Hres).
  unfold imagemin_buffer, bind, then_, unobserved, stdout_write.
  destruct (pPipe hs b) as [buf|reason]; [done|].
  cbn [final_state exit_status stdout stderr fs calls spinning unhandled].
  by rewrite status_with_rejection.
Qed.

Lemma piped_buffer_witness :
  stdout (final_state
            (run sample_env (Buffer [x00; x05])
               (with_plugin "picky" (Some "build") true) [] (fresh sample_disk)))
  = []
  ∧ exit_status (run sample_env (Buffer [x00; x05])
                   (with_plugin "picky" (Some "build") true) [] (fresh sample_disk))
    = 1%Z.
Proof.
  destruct (piped_buffer sample_env [x00; x05]
              (with_plugin "picky" (Some "build") true) [] (fresh sample_disk) [picky])
    as [H _].
  - repeat constructor.
  - cbn in H. destruct H as (Hout & _ & Hexit). by split.
Defined.

(** ** Path list without [--write], continued *)

(** X9.  Without [--write], when the batch call of [imagemin] rejects, the
    summary is not printed and nothing reaches standard output or standard
    error from [cli.js]; the error surfaces as an unhandled rejection twice,
    once through the catch handler of the summary chain and once from the
    second, handler-less call, and the process ends with status 1. *)
Theorem batch_call_failure env input opts sched s hs e :
  write opts = false →
  resolves_to env (arrify (plugin (assign_defaults opts))) hs →
  sched ≡ₚ [0; 1]%nat →
  outcome (imagemin env (fs s) input (outDir opts) hs) = Rejected e →
  stdout (final_state (run env (Paths input) opts sched s)) = stdout s
  ∧ stderr (final_state (run env (Paths input) opts sched s)) = stderr s
  ∧ unhandled (final_state (run env (Paths input) opts sched s))
    = unhandled s ++ [e; e]
  ∧ exit_status (run env (Paths input) opts sched s) = 1%Z.
Proof.
  intros Hw Hres Hperm Hj. rewrite (run_paths_spec _ _ _ _ _ _ Hres Hw).
  apply two_orders in Hperm.
  rewrite (paths_loop_rejected _ _ _ _ _ Hj Hperm).
  cbn [final_state exit_status stdout stderr unhandled].
  repeat split; [done..|].
  change (unhandled s ++ [e; e]) with (unhandled s ++ [e] ++ [e]).
  rewrite app_assoc. apply status_with_rejection.
Qed.

Lemma batch_call_failure_witness :
  unhandled (final_state
               (run sample_env (Paths ["a/*.png"; "d.png"])
                  (with_plugin "picky" (Some "build") false) [0; 1]%nat
                  (fresh sample_disk)))
  = [PluginFailure "a/c.png" "unsupported header";
     PluginFailure "a/c.png" "unsupported header"].
Proof.
  destruct (batch_call_failure sample_env ["a/*.png"; "d.png"]
              (with_plugin "picky" (Some "build") false) [0; 1]%nat
              (fresh sample_disk) [picky]
              (PluginFailure "a/c.png" "unsupported header"))
    as (_ & _ & Hun & _).
  - reflexivity.
  - repeat constructor.
  - reflexivity.
  - reflexivity.
  - exact Hun.
Defined.

(** X15.  With a path list and without [--write], no run ends with status
    0 once the plugins have loaded.  When the call rejects the rejection is
    left unhandled; when several files are bound for standard output the guard
    ends the process; in every other case the summary chain leaves its
    [TypeError] unhandled.  In particular a single file written to standard
    output, in whichever order the two calls complete, ends with status 1. *)
Theorem path_list_without_write_fails env input opts sched s hs :
  write opts = false →
  resolves_to env (arrify (plugin (assign_defaults opts))) hs →
  sched ≡ₚ [0; 1]%nat →
  exit_status (run env (Paths input) opts sched s) = 1%Z.
Proof.
  intros Hw Hres Hperm. rewrite (run_paths_spec _ _ _ _ _ _ Hres Hw).
  apply two_orders in Hperm.
  destruct (outcome (imagemin env (fs s) input (outDir opts) hs)) as [fl|e] eqn:Hj.
  - destruct (truthy (outDir opts)) eqn:Ho.
    + rewrite (paths_loop_quiet _ _ _ _ _ Hj (or_introl Ho) Hperm).
      apply status_with_rejection.
    + destruct (le_lt_dec (length fl) 1) as [Hlen|Hlen].
      * rewrite (paths_loop_quiet _ _ _ _ _ Hj (or_intror Hlen) Hperm).
        apply status_with_rejection.
      * by rewrite (paths_loop_many _ _ _ _ _ Hj Ho Hlen Hperm).
  - rewrite (paths_loop_rejected _ _ _ _ _ Hj Hperm).
    cbn [exit_status unhandled].
    change (unhandled s ++ [e; e]) with (unhandled s ++ [e] ++ [e]).
    rewrite app_assoc. apply status_with_rejection.
Qed.

Lemma path_list_without_write_fails_witness :
  exit_status (run sample_env (Paths ["d.png"]) (with_plugin "flip" None false)
                 [1; 0]%nat (fresh sample_disk))
  = 1%Z.
Proof.
  apply (path_list_without_write_fails sample_env ["d.png"]
           (with_plugin "flip" None false) [1; 0]%nat (fresh sample_disk) [flip]).
  - reflexivity.
  - repeat constructor.
  - apply Permutation_swap.
Defined.

(** ** Where the output goes *)

Lemma handleFile_writes env files o use x :
  (handleFile env files (Some o) use x).2 =
  match files !! file_key env x with
  | Some raw =>
      match pPipe use raw with
      | Transformed buf =>
          if truthy (Some o) then [(file_key env (destination o x), buf)] else []
      | Failed _ => []
      end
  | None => []
  end.
Proof.
  unfold handleFile, destination.
  destruct (files !! file_key env x) as [raw|]; [|done].
  destruct (pPipe use raw); [|done]. by destruct (truthy (Some o)).
Qed.

Lemma imagemin_writes_in env files input o use x raw buf :
  truthy (Some o) = true →
  x ∈ glob env input →
  files !! file_key env x = Some raw →
  pPipe use raw = Transformed buf →
  (file_key env (destination o x), buf)
  ∈ writes (imagemin env files input (Some o) use).
Proof.
  intros Ho Hx Hraw Hbuf. unfold imagemin. cbn [writes].
  induction (glob env input) as [|y paths IH]; [by apply elem_of_nil in Hx|].
  cbn [fmap list_fmap concat]. apply elem_of_app.
  apply elem_of_cons in Hx as [<-|Hx]; [left|right; by apply IH].
  rewrite handleFile_writes, Hraw, Hbuf, Ho. by apply list_elem_of_singleton.
Qed.

Lemma imagemin_writes_from env files input o use p b :
  (p, b) ∈ writes (imagemin env files input (Some o) use) →
  ∃ y raw, y ∈ glob env input ∧ files !! file_key env y = Some raw
           ∧ pPipe use raw = Transformed b
           ∧ p = file_key env (destination o y).
Proof.
  unfold imagemin. cbn [writes].
  induction (glob env input) as [|y paths IH]; intros Hin.
  - by apply elem_of_nil in Hin.
  - cbn [fmap list_fmap concat] in Hin. apply elem_of_app in Hin as [Hin|Hin].
    + rewrite handleFile_writes in Hin.
      destruct (files !! file_key env y) as [raw|] eqn:Hraw;
        [|by apply elem_of_nil in Hin].
      destruct (pPipe use raw) as [buf|] eqn:Hbuf; [|by apply elem_of_nil in Hin].
      destruct (truthy (Some o)); [|by apply elem_of_nil in Hin].
      apply list_elem_of_singleton in Hin as [= -> ->].
      exists y, raw. split; [by apply elem_of_cons; left|done].
    + destruct (IH Hin) as (y' & raw & Hy' & Hrest).
      exists y', raw. split; [by apply elem_of_cons; right|done].
Qed.

Lemma paths_loop_disk o j sched s :
  truthy o = true →
  sched = [0; 1]%nat ∨ sched = [1; 0]%nat →
  ∃ m, fs (final_state (event_loop (paths_done o j j) sched tt s))
       = put_all (writes j) m.
Proof.
  intros Ho Hsched. destruct (outcome j) as [fl|e] eqn:Hj.
  - rewrite (paths_loop_quiet _ _ _ _ _ Hj (or_introl Ho) Hsched). by eexists.
  - rewrite (paths_loop_rejected _ _ _ _ _ Hj Hsched). by eexists.
Qed.

(** X10.  With an output directory and without [--write], a matched file
    whose chain succeeds ends up under that directory at its base name, with
    the bytes the chain made of it, whether or not the other matches fail,
    provided no other file among the matches has the same destination.  The
    directory part of the match is not kept. *)
Theorem out_dir_receives_file env input opts sched s hs o x raw buf :
  write opts = false →
  outDir opts = Some o →
  truthy (Some o) = true →
  resolves_to env (arrify (plugin (assign_defaults opts))) hs →
  sched ≡ₚ [0; 1]%nat →
  x ∈ glob env input →
  fs s !! file_key env x = Some raw →
  pPipe hs raw = Transformed buf →
  (∀ y, y ∈ glob env input →
        file_key env (destination o y) = file_key env (destination o x) →
        file_key env y = file_key env x) →
  fs (final_state (run env (Paths input) opts sched s))
  !! file_key env (destination o x) = Some buf.
Proof.
  intros Hw Hout Ho Hres Hperm Hx Hraw Hbuf Hinj.
  rewrite (run_paths_spec _ _ _ _ _ _ Hres Hw), Hout.
  apply two_orders in Hperm.
  edestruct (paths_loop_disk (Some o)) as [m ->]; [exact Ho|exact Hperm|].
  cbn [fs]. apply put_all_lookup.
  - intros p' b' Hin ->.
    apply imagemin_writes_from in Hin as (y & raw' & Hy & Hraw' & Hbuf' & Hdest).
    symmetry in Hdest. apply (Hinj y Hy) in Hdest. rewrite Hdest in Hraw'. congruence.
  - left. exists buf. by eapply imagemin_writes_in.
Qed.

Lemma out_dir_receives_file_witness :
  fs (final_state
        (run sample_env (Paths ["a/*.png"; "d.png"])
           (with_plugin "picky" (Some "build") false) [1; 0]%nat (fresh sample_disk)))
  !! "/work/build/b.png" = Some [x03; x02; x01].
Proof.
  apply (out_dir_receives_file sample_env ["a/*.png"; "d.png"]
           (with_plugin "picky" (Some "build") false) [1; 0]%nat (fresh sample_disk)
           [picky] "build" "a/b.png" [x01; x02; x03] [x03; x02; x01]).
  - reflexivity.
  - reflexivity.
  - reflexivity.
  - repeat constructor.
  - apply Permutation_swap.
  - apply elem_of_cons. by left.
  - reflexivity.
  - reflexivity.
  - intros y Hy. change (y ∈ ["a/b.png"; "a/c.png"; "d.png"]) in Hy.
    apply elem_of_cons in Hy as [->|Hy]; [done|].
    apply elem_of_cons in Hy as [->|Hy]; [by vm_compute|].
    apply list_elem_of_singleton in Hy as ->. by vm_compute.
Defined.

(** ** Write-in-place, continued *)

Lemma keeps_calls_item_done jobs i st : keeps_calls (item_done jobs i st).
Proof.
  unfold item_done. destruct (jobs !! i) as [[x j]|]; [|done].
  apply keeps_calls_bind; [apply keeps_calls_runSingle_settle|].
  intros [v|e].
  - destruct (_ && _); [|done].
    apply keeps_calls_bind; [by intros s|]. intros results.
    apply keeps_calls_bind; [apply keeps_calls_report|]. by intros _ s.
  - destruct (settled st); [done|].
    apply keeps_calls_bind; [by intros s|]. intros results.
    apply keeps_calls_bind; [apply keeps_calls_report|]. by intros _ s.
Qed.

(** X11.  With [--write], every path the patterns expand to is handed to
    [imagemin] exactly once, on its own, in the order of the expansion and
    with its own directory as destination ([--out-dir] plays no part).  All of
    them are dispatched before any completes, so this holds whatever fails
    later and in whatever order the calls complete. *)
Theorem write_dispatches_every_match env input opts sched s hs :
  write opts = true →
  resolves_to env (arrify (plugin (assign_defaults opts))) hs →
  calls (final_state (run env (Paths input) opts sched s))
  = calls s ++ ((fun x => {| call_input := [x]; call_output := Some (dirname x);
                             call_use := hs |}) <$> glob env input).
Proof.
  intros Hw Hres. rewrite (run_write_spec _ _ _ _ _ _ Hres Hw).
  destruct (length (glob env input) =? 0)%nat.
  - by rewrite keeps_calls_report.
  - rewrite keeps_calls_bind; [done| |by intros _ s0].
    apply keeps_calls_event_loop. intros i st. apply keeps_calls_item_done.
Qed.

Lemma write_dispatches_every_match_witness :
  call_output <$>
    calls (final_state
             (run sample_env (Paths ["a/*.png"; "d.png"])
                (with_plugin "picky" (Some "build") true) [1; 0; 2]%nat
                (fresh sample_disk)))
  = [Some "a"; Some "a"; Some "."].
Proof.
  rewrite (write_dispatches_every_match sample_env
             ["a/*.png"; "d.png"] (with_plugin "picky" (Some "build") true)
             [1; 0; 2]%nat (fresh sample_disk) [picky]).
  - reflexivity.
  - reflexivity.
  - repeat constructor.
Defined.

(** X12.  With [--write], only the first failure to complete is reported.
    While the items that complete have all succeeded nothing is printed; the
    first item to reject rejects the whole batch, so the summary is never
    printed, that one error is left unhandled and the process ends with status
    1.  Items that fail afterwards leave no trace in the output or in the
    list of unhandled rejections, and every item that completes afterwards
    still has its output written. *)
Theorem first_failure_wins env input opts s hs pre k post xk jk e :
  write opts = true →
  resolves_to env (arrify (plugin (assign_defaults opts))) hs →
  (∀ i, i ∈ pre →
        ∃ x j fl, item_jobs env (fs s) hs (glob env input) !! i = Some (x, j)
                  ∧ outcome j = Fulfilled fl) →
  (length pre < length (glob env input))%nat →
  item_jobs env (fs s) hs (glob env input) !! k = Some (xk, jk) →
  outcome jk = Rejected e →
  stdout (final_state (run env (Paths input) opts (pre ++ k :: post) s)) = stdout s
  ∧ stderr (final_state (run env (Paths input) opts (pre ++ k :: post) s)) = stderr s
  ∧ unhandled (final_state (run env (Paths input) opts (pre ++ k :: post) s))
    = unhandled s ++ [e]
  ∧ exit_status (run env (Paths input) opts (pre ++ k :: post) s) = 1%Z
  ∧ fs (final_state (run env (Paths input) opts (pre ++ k :: post) s))
    = fs_after (item_jobs env (fs s) hs (glob env input)) (pre ++ k :: post) (fs s).
Proof.
  intros Hw Hres Hpre Hlen Hk Hjk.
  rewrite (run_write_spec _ _ _ _ _ _ Hres Hw).
  destruct (Nat.eqb_spec (length (glob env input)) 0) as [Hzero|_]; [lia|].
  match goal with
  | |- context [bind (event_loop ?step ?sched ?st) ?cont ?s1] =>
      destruct (loop_rejects (item_jobs env (fs s) hs (glob env input))
                  pre k post xk jk e st s1 Hk Hjk)
        as (st' & Hrun); [done|done|exact Hpre|];
      assert (Hfinal : bind (event_loop step sched st) cont s1
                       = Ret tt {| stdout := stdout s; stderr := stderr s;
                                   fs := fs_after
                                           (item_jobs env (fs s) hs (glob env input))
                                           (pre ++ k :: post) (fs s);
                                   spinning := false; calls := calls s1;
                                   unhandled := unhandled s ++ [e] |})
        by (unfold bind; by rewrite Hrun);
      rewrite Hfinal
  end.
  cbn [final_state exit_status stdout stderr unhandled fs].
  by rewrite status_with_rejection.
Qed.

Lemma first_failure_wins_witness :
  unhandled (final_state
               (run sample_env (Paths ["a/*.png"; "d.png"])
                  (with_plugin "picky" None true) ([0] ++ 1 :: [2])%nat
                  (fresh (delete "/work/d.png" sample_disk))))
  = [PluginFailure "a/c.png" "unsupported header"]
  ∧ outcome (item_job sample_env (delete "/work/d.png" sample_disk)
               [picky] "d.png")
    = Rejected (ReadFailure "d.png")
  ∧ exit_status (run sample_env (Paths ["a/*.png"; "d.png"])
                   (with_plugin "picky" None true) ([0] ++ 1 :: [2])%nat
                   (fresh (delete "/work/d.png" sample_disk)))
    = 1%Z.
Proof.
  destruct (first_failure_wins sample_env
              ["a/*.png"; "d.png"] (with_plugin "picky" None true)
              (fresh (delete "/work/d.png" sample_disk)) [picky] [0%nat] 1%nat [2%nat]
              "a/c.png"
              (item_job sample_env (delete "/work/d.png" sample_disk)
                 [picky] "a/c.png")
              (PluginFailure "a/c.png" "unsupported header"))
    as (_ & _ & Hun & Hstatus & _).
  - reflexivity.
  - repeat constructor.
  - intros i Hi. apply list_elem_of_singleton in Hi as ->.
    by eexists _, _, _.
  - cbn. lia.
  - reflexivity.
  - reflexivity.
  - split; [exact Hun|]. split; [reflexivity|exact Hstatus].
Defined.

(** ** Files that are never written *)

Lemma preserves_through_fs {A B} (g : gmap string bytes → B) (m : M A) :
  preserves fs m → preserves (fun s => g (fs s)) m.
Proof. intros Hm s. by rewrite Hm. Qed.

Lemma preserves_lookup_apply_writes ws y :
  (∀ p b, (p, b) ∈ ws → p ≠ y) →
  preserves (fun s => fs s !! y) (apply_writes ws).
Proof.
  intros Hws s. rewrite apply_writes_spec. cbn [final_state on_disk fs].
  by apply put_all_other.
Qed.

Lemma preserves_lookup_runSingle_settle j o y :
  (∀ p b, (p, b) ∈ writes j → p ≠ y) →
  preserves (fun s => fs s !! y) (runSingle_settle j o).
Proof.
  intros Hws. unfold runSingle_settle.
  apply preserves_bind; [by apply preserves_lookup_apply_writes|].
  intros _. apply preserves_then. intros fl.
  apply (preserves_through_fs (fun m => m !! y)), preserves_fs_runSingle_then.
Qed.

Lemma preserves_lookup_report p y : preserves (fun s => fs s !! y) (report p).
Proof. apply (preserves_through_fs (fun m => m !! y)), preserves_fs_report. Qed.

(** X13.  With an output directory and without [--write], the only files
    ever written are the destinations of the matches (the base name of a match
    under the output directory): every other file, the sources included, is
    left as it was, whatever the plugins do and whether they load or not. *)
Theorem out_dir_writes_only_destinations env input opts sched s o y :
  write opts = false →
  outDir opts = Some o →
  (∀ x, x ∈ glob env input → file_key env (destination o x) ≠ y) →
  fs (final_state (run env (Paths input) opts sched s)) !! y = fs s !! y.
Proof.
  intros Hw Hout Hy. revert s.
  change (preserves (fun s => fs s !! y) (run env (Paths input) opts sched)).
  assert (Hjob : ∀ use s0 j s', runSingle env use input (Some o) s0 = Ret j s' →
                                ∀ p b, (p, b) ∈ writes j → p ≠ y).
  { intros use s0 j s' Hj p b Hin. apply runSingle_returns in Hj as ->.
    apply imagemin_writes_from in Hin as (x & raw & Hx & _ & _ & ->). by apply Hy. }
  unfold run. apply preserves_bind.
  { apply (preserves_through_fs (fun m => m !! y)), preserves_fs_requirePlugins. }
  intros use. cbn [outDir write assign_defaults]. rewrite Hw, Hout. cbn [negb].
  apply preserves_bind; [apply preserves_if; by intros s|]. intros _.
  apply (preserves_bind_post _ (fun j => ∀ p b, (p, b) ∈ writes j → p ≠ y));
    [apply Hjob|by intros s|]. intros j1 Hj1.
  apply (preserves_bind_post _ (fun j => ∀ p b, (p, b) ∈ writes j → p ≠ y));
    [apply Hjob|by intros s|]. intros j2 Hj2.
  apply preserves_event_loop. intros [|[|i]] st; cbn [paths_done].
  - apply preserves_bind; [by apply preserves_lookup_runSingle_settle|].
    intros q. apply preserves_lookup_report.
  - apply preserves_bind; [by apply preserves_lookup_runSingle_settle|].
    intros q. by apply preserves_unobserved.
  - apply preserves_ret.
Qed.

Lemma out_dir_writes_only_destinations_witness :
  fs (final_state
        (run sample_env (Paths ["a/*.png"; "d.png"])
           (with_plugin "flip" (Some "build") false) [0; 1]%nat (fresh sample_disk)))
  !! "/work/a/b.png" = Some [x01; x02; x03].
Proof.
  apply (out_dir_writes_only_destinations sample_env
           ["a/*.png"; "d.png"] (with_plugin "flip" (Some "build") false)
           [0; 1]%nat (fresh sample_disk) "build" "/work/a/b.png").
  - reflexivity.
  - reflexivity.
  - intros x Hx. change (x ∈ ["a/b.png"; "a/c.png"; "d.png"]) in Hx.
    apply elem_of_cons in Hx as [->|Hx]; [by vm_compute|].
    apply elem_of_cons in Hx as [->|Hx]; [by vm_compute|].
    apply list_elem_of_singleton in Hx as ->. by vm_compute.
Defined.

Lemma item_jobs_writes env files use paths i p b :
  (p, b) ∈ job_writes (item_jobs env files use paths) i →
  ∃ x x', x ∈ paths ∧ x' ∈ glob env [x]
          ∧ p = file_key env (destination (dirname x) x').
Proof.
  unfold job_writes, item_jobs. rewrite list_lookup_fmap.
  destruct (paths !! i) as [x|] eqn:Hx; cbn [fmap option_fmap option_map];
    [|intros Hin; by apply elem_of_nil in Hin].
  intros Hin. apply imagemin_writes_from in Hin as (x' & raw & Hx' & _ & _ & ->).
  exists x, x'. split; [by eapply list_elem_of_lookup_2|done].
Qed.

Lemma preserves_lookup_item_done jobs i st y :
  (∀ p b, (p, b) ∈ job_writes jobs i → p ≠ y) →
  preserves (fun s => fs s !! y) (item_done jobs i st).
Proof.
  intros Hws. unfold item_done, job_writes in *.
  destruct (jobs !! i) as [[x j]|]; [|apply preserves_ret].
  apply preserves_bind; [by apply preserves_lookup_runSingle_settle|].
  intros [v|e].
  - apply preserves_if; [|apply preserves_ret].
    apply preserves_bind; [by intros s|]. intros results.
    apply preserves_bind; [apply preserves_lookup_report|]. intros _. apply preserves_ret.
  - apply preserves_if; [apply preserves_ret|].
    apply preserves_bind; [by intros s|]. intros results.
    apply preserves_bind; [apply preserves_lookup_report|]. intros _. apply preserves_ret.
Qed.

(** X14.  With [--write], the only files ever written are the ones the
    matches lead to: the base name of what a match expands to, under the
    directory of the match.  Every other file is left as it was, whatever the
    plugins do, whether they load or not, and in whatever order the calls
    complete. *)
Theorem write_touches_only_matches env input opts sched s y :
  write opts = true →
  (∀ x x', x ∈ glob env input → x' ∈ glob env [x] →
           file_key env (destination (dirname x) x') ≠ y) →
  fs (final_state (run env (Paths input) opts sched s)) !! y = fs s !! y.
Proof.
  intros Hw Hy. revert s.
  change (preserves (fun s => fs s !! y) (run env (Paths input) opts sched)).
  unfold run. apply preserves_bind.
  { apply (preserves_through_fs (fun m => m !! y)), preserves_fs_requirePlugins. }
  intros use. cbn [outDir write assign_defaults]. rewrite Hw. cbn [negb].
  apply preserves_bind; [apply preserves_if; by intros s|]. intros _.
  apply (preserves_bind_post _
           (fun jobs => ∀ i p b, (p, b) ∈ job_writes jobs i → p ≠ y)).
  { intros s0 jobs s' Hjobs i p b Hin. rewrite dispatch_spec in Hjobs.
    injection Hjobs as <- _.
    apply item_jobs_writes in Hin as (x & x' & Hx & Hx' & ->). by apply Hy. }
  { intros s0. by rewrite dispatch_spec. }
  intros jobs Hjobs. apply preserves_if.
  - apply preserves_bind; [by intros s|]. intros results.
    apply preserves_lookup_report.
  - apply preserves_bind; [|intros; apply preserves_ret].
    apply preserves_event_loop. intros i st.
    apply preserves_lookup_item_done, Hjobs.
Qed.

Lemma write_touches_only_matches_witness :
  fs (final_state
        (run sample_env (Paths ["a/*.png"])
           (with_plugin "flip" (Some "build") true) [1; 0]%nat (fresh sample_disk)))
  !! "/work/d.png" = Some [x07; x08]
  ∧ fs (final_state
          (run sample_env (Paths ["a/*.png"])
             (with_plugin "flip" (Some "build") true) [1; 0]%nat (fresh sample_disk)))
    !! "/work/build/b.png" = None.
Proof.
  split.
  - apply (write_touches_only_matches sample_env ["a/*.png"]
             (with_plugin "flip" (Some "build") true) [1; 0]%nat (fresh sample_disk)
             "/work/d.png"); [reflexivity|].
    intros x x' Hx. change (x ∈ ["a/b.png"; "a/c.png"]) in Hx.
    apply elem_of_cons in Hx as [->|Hx];
      [|apply list_elem_of_singleton in Hx as ->];
      intros Hx'; apply list_elem_of_singleton in Hx' as ->; by vm_compute.
  - apply (write_touches_only_matches sample_env ["a/*.png"]
             (with_plugin "flip" (Some "build") true) [1; 0]%nat (fresh sample_disk)
             "/work/build/b.png"); [reflexivity|].
    intros x x' Hx. change (x ∈ ["a/b.png"; "a/c.png"]) in Hx.
    apply elem_of_cons in Hx as [->|Hx];
      [|apply list_elem_of_singleton in Hx as ->];
      intros Hx'; apply list_elem_of_singleton in Hx' as ->; by vm_compute.
Defined.

(** ** Files rewritten in place *)

(** X17.  Write-in-place hands [imagemin] the directory of the match as
    destination, and [imagemin] puts the output at the base name of the match
    under it: that is the file the match itself names, however the match is
    spelled ([./a/b.png], [a//b.png], [a/../c.png], a trailing slash) and
    in whatever working directory. *)
Theorem destination_is_source env x :
  file_key env (destination (dirname x) x) = file_key env x.
Proof. unfold file_key, destination. apply same_file. Qed.

Lemma job_writes_ok env files use paths i x buf :
  paths !! i = Some x →
  rewritable env files use x buf →
  job_writes (item_jobs env files use paths) i = [(file_key env x, buf)]
  ∧ ∃ fl, outcome (item_job env files use x) = Fulfilled fl.
Proof.
  intros Hi (Hglob & raw & Hraw & Hbuf).
  unfold job_writes. rewrite (item_jobs_lookup _ _ _ _ _ _ Hi).
  rewrite (item_job_ok _ _ _ _ _ _ Hglob Hraw Hbuf).
  unfold file_key, destination. rewrite same_file.
  split; [done|by eexists].
Qed.

Lemma rewritable_functional env files use x x' buf buf' :
  file_key env x = file_key env x' →
  rewritable env files use x buf → rewritable env files use x' buf' → buf = buf'.
Proof.
  intros Hkey (_ & raw & Hraw & Hbuf) (_ & raw' & Hraw' & Hbuf').
  rewrite Hkey in Hraw. congruence.
Qed.

(** X16.  Write-in-place on files it does handle.  When every match is a
    path that, taken as a pattern, expands to itself, can be read and passes
    the chain, then for every order of completion each matched file holds, at
    the end, the bytes the chain made of its content at the start; no other
    file has changed; every match was handed to [imagemin] on its own with its
    directory as destination; the summary counts exactly the matches, nothing
    is printed on standard error and no rejection is added, so that a process
    that starts clean ends with status 0. *)
Theorem write_in_place env input opts sched s hs :
  write opts = true →
  resolves_to env (arrify (plugin (assign_defaults opts))) hs →
  sched ≡ₚ seq 0 (length (glob env input)) →
  (∀ x, x ∈ glob env input → ∃ buf, rewritable env (fs s) hs x buf) →
  calls (final_state (run env (Paths input) opts sched s))
  = calls s ++ ((fun x => {| call_input := [x]; call_output := Some (dirname x);
                             call_use := hs |}) <$> glob env input)
  ∧ (∀ x buf, x ∈ glob env input → rewritable env (fs s) hs x buf →
              fs (final_state (run env (Paths input) opts sched s))
              !! file_key env x = Some buf)
  ∧ (∀ y, (∀ x, x ∈ glob env input → file_key env x ≠ y) →
          fs (final_state (run env (Paths input) opts sched s)) !! y = fs s !! y)
  ∧ stdout (final_state (run env (Paths input) opts sched s))
    = stdout s ++ utf8 (summary_line (length (glob env input)) +:+ nl)
  ∧ stderr (final_state (run env (Paths input) opts sched s)) = stderr s
  ∧ unhandled (final_state (run env (Paths input) opts sched s)) = unhandled s
  ∧ exit_status (run env (Paths input) opts sched s) = status_at_end s.
Proof.
  intros Hw Hres Hperm Hok.
  rewrite (run_write_fulfils _ _ _ _ _ _ Hres Hw Hperm).
  2:{ intros x Hx. destruct (Hok x Hx) as (buf & Hglob & raw & Hraw & Hbuf).
      rewrite (item_job_ok _ _ _ _ _ _ Hglob Hraw Hbuf). by eexists. }
  cbn [final_state exit_status calls fs stdout stderr unhandled].
  set (paths := glob env input) in *.
  set (jobs := item_jobs env (fs s) hs paths).
  assert (Hjob : ∀ i, i ∈ sched →
            ∃ x buf, paths !! i = Some x ∧ rewritable env (fs s) hs x buf
                     ∧ job_writes jobs i = [(file_key env x, buf)]).
  { intros i Hi. apply (schedule_indices _ _ _ Hperm) in Hi.
    destruct (lookup_lt_is_Some_2 paths i Hi) as [x Hx].
    destruct (Hok x) as [buf Hbuf]; [by eapply list_elem_of_lookup_2|].
    exists x, buf. split; [done|]. split; [done|].
    by apply job_writes_ok. }
  split; [done|]. split; [|split; [|done]].
  - intros x buf Hx Hbuf. apply fs_after_lookup.
    + intros i p' b' Hi Hin Hp'.
      destruct (Hjob i Hi) as (x' & buf' & _ & Hbuf' & Hws).
      rewrite Hws in Hin. apply list_elem_of_singleton in Hin as [= -> ->].
      by apply (rewritable_functional _ _ _ _ _ _ _ Hp' Hbuf' Hbuf).
    + left. apply list_elem_of_lookup_1 in Hx as [i Hi].
      assert (Hin : i ∈ sched).
      { rewrite Hperm. apply elem_of_seq. apply lookup_lt_Some in Hi. lia. }
      exists i, buf. split; [done|].
      destruct (Hjob i Hin) as (x' & buf' & Hi' & Hbuf' & Hws).
      rewrite Hws. rewrite Hi in Hi'. injection Hi' as <-.
      rewrite (rewritable_functional _ _ _ _ _ _ _ eq_refl Hbuf Hbuf').
      by apply list_elem_of_singleton.
  - intros y Hy. apply fs_after_other. intros i p b Hi Hin ->.
    destruct (Hjob i Hi) as (x' & buf' & Hi' & _ & Hws).
    rewrite Hws in Hin. apply list_elem_of_singleton in Hin as [= -> ->].
    apply (Hy x'); [by eapply list_elem_of_lookup_2|done].
Qed.

Lemma write_in_place_witness :
  stdout (final_state
            (run sample_env (Paths ["a/*.png"; "./d.png"])
               (with_plugin "flip" None true) [2; 0; 1]%nat (fresh sample_disk)))
  = utf8 ("3 images minified" +:+ nl)
  ∧ fs (final_state
          (run sample_env (Paths ["a/*.png"; "./d.png"])
             (with_plugin "flip" None true) [2; 0; 1]%nat (fresh sample_disk)))
    !! "/work/d.png" = Some [x08; x07]
  ∧ exit_status (run sample_env (Paths ["a/*.png"; "./d.png"])
                   (with_plugin "flip" None true) [2; 0; 1]%nat (fresh sample_disk))
    = 0%Z.
Proof.
  destruct (write_in_place sample_env ["a/*.png"; "./d.png"]
              (with_plugin "flip" None true) [2; 0; 1]%nat (fresh sample_disk) [flip])
    as (_ & Hdisk & _ & Hout & _ & _ & Hstatus).
  - reflexivity.
  - repeat constructor.
  - etrans; [apply (Permutation_swap 0%nat 2%nat)|].
    apply perm_skip, Permutation_swap.
  - intros x Hx. change (x ∈ ["a/b.png"; "a/c.png"; "./d.png"]) in Hx.
    apply elem_of_cons in Hx as [->|Hx]; [eexists; split; [done|by eexists]|].
    apply elem_of_cons in Hx as [->|Hx]; [eexists; split; [done|by eexists]|].
    apply list_elem_of_singleton in Hx as ->. eexists; split; [done|by eexists].
  - split; [exact Hout|]. split; [|exact Hstatus].
    apply (Hdisk "./d.png" [x08; x07]).
    + apply elem_of_cons; right. apply elem_of_cons; right.
      apply elem_of_cons; by left.
    + split; [done|]. by eexists.
Defined.

(** In write-in-place mode a pattern without matches gives the summary for
    zero images. *)
Lemma no_match_write_in_place env input opts sched s hs :
  write opts = true →
  resolves_to env (arrify (plugin (assign_defaults opts))) hs →
  glob env input = [] →
  stdout (final_state (run env (Paths input) opts sched s))
  = stdout s ++ utf8 ("0 images minified" +:+ nl)
  ∧ exit_status (run env (Paths input) opts sched s) = status_at_end s.
Proof.
  intros Hw Hres Hnone. rewrite (run_write_spec _ _ _ _ _ _ Hres Hw), Hnone.
  cbn [length Nat.eqb]. by rewrite report_array.
Qed.

(** ** The text of the diagnostic for a plugin that does not load *)

Lemma lines_line l rest :
  on_one_line l → lines (l ++ newline :: rest) = (l, Some newline) :: lines rest.
Proof.
  induction l as [|c l IH]; intros Hl; [done|].
  apply andb_true_iff in Hl as [Hc Hl]. apply negb_true_iff in Hc.
  cbn [app lines]. by rewrite Hc, (IH Hl).
Qed.

Lemma lines_last l : on_one_line l → lines l = [(l, None)].
Proof.
  induction l as [|c l IH]; intros Hl; [done|].
  apply andb_true_iff in Hl as [Hc Hl]. apply negb_true_iff in Hc.
  cbn [lines]. by rewrite Hc, (IH Hl).
Qed.

Lemma on_one_line_app l1 l2 : on_one_line (l1 ++ l2) ↔ on_one_line l1 ∧ on_one_line l2.
Proof. unfold on_one_line. rewrite forallb_app, andb_true_iff. tauto. Qed.

Lemma trim_start_before c l rest :
  is_space c = false → trim_start (l ++ c :: rest) = trim_start l ++ c :: rest.
Proof.
  intros Hc. induction l as [|a l IH]; [by cbn; rewrite Hc|].
  cbn [app trim_start]. by destruct (is_space a).
Qed.

Lemma trim_end_after c l rest :
  is_space c = false → trim_end (rest ++ c :: l) = rest ++ c :: trim_end l.
Proof.
  intros Hc. unfold trim_end. rewrite rev_app_distr. cbn [rev].
  rewrite <- app_assoc. cbn [app]. rewrite (trim_start_before _ _ _ Hc).
  rewrite rev_app_distr. cbn [rev]. rewrite rev_involutive, <- app_assoc. done.
Qed.

Lemma trim_end_spaces l tail :
  forallb is_space tail = true → trim_end (l ++ tail) = trim_end l.
Proof.
  intros Htail. unfold trim_end. rewrite rev_app_distr. f_equal.
  assert (Hrev : forallb is_space (rev tail) = true).
  { rewrite forallb_forall in *. intros c Hc. apply Htail. by apply in_rev. }
  induction (rev tail) as [|c t IH]; [done|].
  cbn [forallb] in Hrev. apply andb_true_iff in Hrev as [Hc Ht].
  cbn [app trim_start]. rewrite Hc. by apply IH.
Qed.

(** X18.  For a name without a line break the diagnostic reads: the line
    "Unknown plugin: " with the name as it was requested, an empty line, the
    two lines of the hint, an empty line, and the command to install the
    plugin, indented by two spaces, in which the name has lost the white space
    at its end.  The indentation of the template and the line breaks around it
    are gone. *)
Theorem diagnostic_for_one_line_name x :
  on_one_line (list_ascii_of_string x) →
  unknown_plugin_message x
  = "Unknown plugin: " +:+ x +:+ nl +:+ nl +:+
    "Did you forget to install the plugin?" +:+ nl +:+
    "You can install it with:" +:+ nl +:+ nl +:+
    "  $ npm install -g imagemin-"
    +:+ string_of_list_ascii (trim_end (list_ascii_of_string x)).
Proof.
  intros Hx. set (xs := list_ascii_of_string x) in *.
  assert (Htemplate :
    list_ascii_of_string (unknown_plugin_template x)
    = [] ++ newline ::
      (list_ascii_of_string (tab +:+ tab +:+ tab +:+ "Unknown plugin: ") ++ xs)
      ++ newline :: [] ++ newline ::
      list_ascii_of_string (tab +:+ tab +:+ tab +:+ "Did you forget to install the plugin?")
      ++ newline ::
      list_ascii_of_string (tab +:+ tab +:+ tab +:+ "You can install it with:")
      ++ newline :: [] ++ newline ::
      (list_ascii_of_string (tab +:+ tab +:+ tab +:+ "  $ npm install -g imagemin-") ++ xs)
      ++ newline :: list_ascii_of_string (tab +:+ tab)).
  { unfold unknown_plugin_template. rewrite !chars_app. subst xs.
    cbn [list_ascii_of_string app nl tab]. reflexivity. }
  assert (Hlines :
    lines (list_ascii_of_string (unknown_plugin_template x))
    = [ ([], Some newline);
        (list_ascii_of_string (tab +:+ tab +:+ tab +:+ "Unknown plugin: ") ++ xs,
         Some newline);
        ([], Some newline);
        (list_ascii_of_string
           (tab +:+ tab +:+ tab +:+ "Did you forget to install the plugin?"),
         Some newline);
        (list_ascii_of_string (tab +:+ tab +:+ tab +:+ "You can install it with:"),
         Some newline);
        ([], Some newline);
        (list_ascii_of_string
           (tab +:+ tab +:+ tab +:+ "  $ npm install -g imagemin-") ++ xs,
         Some newline);
        (list_ascii_of_string (tab +:+ tab), None) ]).
  { rewrite Htemplate.
    rewrite !lines_line, lines_last; try done; by apply on_one_line_app. }
  unfold unknown_plugin_message, stripIndent. rewrite Hlines.
  change (min_indent _) with (Some 3%nat). cbv iota beta.
  set (before := list_ascii_of_string "Unknown plugin: " ++ xs ++
         newline :: newline ::
         list_ascii_of_string "Did you forget to install the plugin?" ++
         newline :: list_ascii_of_string "You can install it with:" ++
         newline :: newline ::
         list_ascii_of_string "  $ npm install -g imagemin").
  match goal with
  | |- trim (string_of_list_ascii ?l) = _ =>
      assert (Hstripped : l = newline :: (before ++ "-"%char :: xs)
                              ++ [newline; ascii_of_nat 9; ascii_of_nat 9])
  end.
  { subst before. rewrite <- !app_assoc. reflexivity. }
  rewrite Hstripped.
  unfold trim. rewrite list_ascii_of_string_of_list_ascii.
  change (trim_start (newline :: ?l)) with (trim_start l).
  assert (Hstart : ∀ rest, trim_start ((before ++ rest)
                             ++ [newline; ascii_of_nat 9; ascii_of_nat 9])
                           = (before ++ rest)
                             ++ [newline; ascii_of_nat 9; ascii_of_nat 9])
    by done.
  rewrite Hstart, trim_end_spaces, trim_end_after by done.
  match goal with
  | |- _ = ?target => rewrite <- (string_of_list_ascii_of_string target)
  end.
  f_equal. rewrite !chars_app, list_ascii_of_string_of_list_ascii.
  subst before. fold xs. rewrite <- !app_assoc. reflexivity.
Qed.

Lemma diagnostic_for_one_line_name_witness :
  unknown_plugin_message "svgo  "
  = "Unknown plugin: svgo  " +:+ nl +:+ nl +:+
    "Did you forget to install the plugin?" +:+ nl +:+
    "You can install it with:" +:+ nl +:+ nl +:+
    "  $ npm install -g imagemin-svgo".
Proof.
  apply (diagnostic_for_one_line_name "svgo  "). reflexivity.
Defined.
